(** * canvas-graphics: style resolution, paint dispatch and the canvas hooks

    A shallow embedding of [packages/canvas/canvas-graphics/src/graphics.ts].

    - Style objects live in a store indexed by reference, so that "the same
      style" means the same reference, as the [WeakSet] in [resolve] has it.
    - The 2D context, the renderer and the graphics object are collaborators
      outside the file: the model records the calls made on them, in order,
      and lets any call throw.
    - [Tinted] computes on 32-bit integers and binary64 numbers: the integers
      are [Z] with the wrap-around written out, the numbers are primitive
      floats. *)

From Stdlib Require Import QArith Floats Uint63.
From stdpp Require Import gmap strings list fin_maps.

#[local] Set Warnings "-clear-no-such-hyp".

Local Open Scope string_scope.
Local Open Scope list_scope.

(** ** Values and style objects *)

(** A reference to an object; two references are the same object exactly
    when they are equal. *)
Definition loc := positive.

(** The JavaScript values a style field can hold. An array is only ever read
    as a [use] list, whose elements the type [IStyle<S>[]] makes styles. *)
Inductive value :=
| VUndefined
| VNull
| VBool (b : bool)
| VNumber (q : Q)
| VNaN
| VString (s : string)
| VPattern (p : loc)
| VArray (l : list loc).

(** Truthiness, as [if (v)] decides it. *)
Definition truthy (v : value) : bool :=
  match v with
  | VUndefined | VNull | VNaN => false
  | VBool b => b
  | VNumber q => negb (Qnum q =? 0)%Z
  | VString s => negb (String.eqb s "")
  | VPattern _ | VArray _ => true
  end.

(** The object store. A style is a plain object: its own fields by name.
    [prop in s] is membership of [prop] among them (the members every object
    inherits from [Object.prototype] are not field names of a style). Every
    reference a program holds points into the store; a reference outside it
    reads as an object without fields. *)
Definition heap := gmap loc (gmap string value).

(** [prop in s] for the object at [s]. *)
Definition has_prop (h : heap) (s : loc) (prop : string) : bool :=
  match h !! s with
  | Some o => bool_decide (is_Some (o !! prop))
  | None => false
  end.

(** [s[prop]] for the object at [s]: a field that is not there reads
    [undefined]. *)
Definition get_prop (h : heap) (s : loc) (prop : string) : value :=
  match h !! s with
  | Some o => default VUndefined (o !! prop)
  | None => VUndefined
  end.

(** [s.use] when it passes [if (s.use)]: the list to recurse into. *)
Definition use_of (h : heap) (s : loc) : option (list loc) :=
  match get_prop h s "use" with
  | VArray l => Some l
  | _ => None
  end.

(** ** resolve *)

(** [resolve(styles, seen)]. The [WeakSet] is one object shared by the whole
    recursion, so it is threaded through and returned next to [res]. The
    recursion into [s.use] is not structural: [fuel] bounds its depth, and
    [None] means the bound was hit. The [for] loop is the inner [fix]. *)
Fixpoint resolve (fuel : nat) (h : heap) (styles : list loc) (seen : gset loc)
  : option (list loc * gset loc) :=
  match fuel with
  | O => None
  | S fuel' =>
      (fix loop (styles : list loc) (seen : gset loc) (res : list loc)
         {struct styles} : option (list loc * gset loc) :=
         match styles with
         | [] => Some (res, seen)
         | s :: rest =>
             if decide (s ∈ seen) then loop rest seen res
             else
               let seen1 := {[s]} ∪ seen in
               let res1 := res ++ [s] in
               match use_of h s with
               | Some u =>
                   match resolve fuel' h u seen1 with
                   | Some (sub, seen2) => loop rest seen2 (res1 ++ sub)
                   | None => None
                   end
               | None => loop rest seen1 res1
               end
         end) styles seen []
  end.

(** The depth of the recursion never exceeds the number of stored objects,
    so this much fuel is always enough (see [resolve_enough_fuel]). *)
Definition resolve_fuel (h : heap) : nat := S (size (dom h)).

(** [resolve(styles, seen)] run to its end: the list it returns and what
    [seen] holds afterwards. *)
Definition resolve_with (h : heap) (styles : list loc) (seen : gset loc)
  : list loc * gset loc :=
  default ([], seen) (resolve (resolve_fuel h) h styles seen).

(** [resolve(styles)] with the default [seen = new WeakSet()]. *)
Definition resolve_styles (h : heap) (styles : list loc) : list loc :=
  (resolve_with h styles ∅).1.

(** The body of the [for] loop of [resolve], with the recursive call at
    fuel [f]: what [resolve (S f)] runs from an empty [res]. *)
Definition resolve_loop (f : nat) (h : heap)
  : list loc → gset loc → list loc → option (list loc * gset loc) :=
  fix loop (styles : list loc) (seen : gset loc) (res : list loc)
    {struct styles} : option (list loc * gset loc) :=
    match styles with
    | [] => Some (res, seen)
    | s :: rest =>
        if decide (s ∈ seen) then loop rest seen res
        else
          let seen1 := {[s]} ∪ seen in
          let res1 := res ++ [s] in
          match use_of h s with
          | Some u =>
              match resolve f h u seen1 with
              | Some (sub, seen2) => loop rest seen2 (res1 ++ sub)
              | None => None
              end
          | None => loop rest seen1 res1
          end
    end.

(** [res] in front of what a later part of the loop pushes. *)
Definition onto (res : list loc) (r : list loc * gset loc) : list loc * gset loc :=
  (res ++ r.1, r.2).

(** ** Calls on collaborators

    A computation reads and writes the module-level variables [Σ] and makes
    calls [E] on objects outside the file. Every call is appended to the
    trace; [throws past c] says whether the call [c], made after the calls
    [past], throws. An exception propagates: nothing in the file catches. *)

Inductive outcome (A : Type) :=
| Returned (a : A)
| Thrown.
Arguments Returned {A} a.
Arguments Thrown {A}.

Record result (Σ E A : Type) := Result {
  final : Σ;
  trace : list E;
  out : outcome A
}.
Arguments Result {Σ E A} final trace out.
Arguments final {Σ E A} r.
Arguments trace {Σ E A} r.
Arguments out {Σ E A} r.

Section Calls.
Context {Σ E : Type}.
Variable throws : list E → E → bool.

Definition M (A : Type) : Type := Σ → list E → result Σ E A.

Definition ret {A} (a : A) : M A := λ σ t, Result σ t (Returned a).

Definition bind {A B} (m : M A) (k : A → M B) : M B :=
  λ σ t,
    match m σ t with
    | Result σ' t' (Returned a) => k a σ' t'
    | Result σ' t' Thrown => Result σ' t' Thrown
    end.

Definition invoke (c : E) : M unit :=
  λ σ t, Result σ (t ++ [c]) (if throws t c then Thrown else Returned tt).

(** An exception raised by the language itself, not by a call. *)
Definition throw {A} : M A := λ σ t, Result σ t Thrown.

(** A caller that catches whatever [m] throws and goes on. *)
Definition attempt {A} (m : M A) : M unit :=
  λ σ t, match m σ t with Result σ' t' _ => Result σ' t' (Returned tt) end.

Definition get : M Σ := λ σ t, Result σ t (Returned σ).

Definition put (σ' : Σ) : M unit := λ _ t, Result σ' t (Returned tt).

(** A block of calls with nothing in between. *)
Fixpoint invoke_all (cs : list E) : M unit :=
  match cs with
  | [] => ret tt
  | c :: cs' => bind (invoke c) (λ _, invoke_all cs')
  end.
End Calls.

#[global] Instance M_ret {Σ E} : MRet (@M Σ E) := λ A a, ret a.
#[global] Instance M_bind {Σ E} : MBind (@M Σ E) := λ A B k m, bind m k.

(** ** Paint *)

Module Paint.

(** What the file does to the [CanvasRenderingContext2D]. *)
Inductive call :=
| Save
| Restore
| Assign (field : string) (v : value)
| Fill
| Stroke
| Clip.

(** [IStyles<S> = IStyle<S> | IStyle<S>[]]. *)
Inductive styles_arg :=
| One (s : loc)
| Many (l : list loc).

(** [[styles].flat()]. *)
Definition flat (styles : styles_arg) : list loc :=
  match styles with
  | One s => [s]
  | Many l => l
  end.

(** The closure [use] of [open], over the resolved [styles]. *)
Fixpoint use (h : heap) (styles : list loc) (prop : string) : value :=
  match styles with
  | [] => VUndefined
  | s :: rest => if has_prop h s prop then get_prop h s prop else use h rest prop
  end.

Section Dispatch.
Variable throws : list call → call → bool.
Variable h : heap.

Definition open (styles : styles_arg) (cb : (string → value) → M (Σ:=unit) (E:=call) unit)
  : M (Σ:=unit) (E:=call) unit :=
  let styles := flat styles in
  if (length styles =? 0)%nat then
    cb (λ _, VUndefined)
  else
    let styles := resolve_styles h styles in
    let use := use h styles in
    (invoke throws Save ;;
     invoke throws (Assign "globalAlpha" (use "alpha")) ;;
     invoke throws (Assign "globalCompositeOperation" (use "blendMode")) ;;
     cb use ;;
     invoke throws Restore).

Definition fill (styles : styles_arg) : M (Σ:=unit) (E:=call) unit :=
  open styles (λ use,
    invoke throws (Assign "fillStyle" (use "paint")) ;;
    invoke throws Fill).

Definition stroke (styles : styles_arg) : M (Σ:=unit) (E:=call) unit :=
  open styles (λ use,
    invoke throws (Assign "strokeStyle" (use "paint")) ;;
    invoke throws (Assign "lineWidth" (use "width")) ;;
    invoke throws (Assign "lineCap" (use "cap")) ;;
    invoke throws (Assign "lineJoin" (use "join")) ;;
    invoke throws (Assign "miterLimit" (use "miterLimit")) ;;
    (if truthy (use "clip") then invoke throws Clip else mret tt) ;;
    invoke throws Stroke).
End Dispatch.

(** The two functions [Paint] hands out. *)
Inductive primitive := DoFill | DoStroke.

Definition dispatch (throws : list call → call → bool) (h : heap)
    (p : primitive) (styles : styles_arg) : M (Σ:=unit) (E:=call) unit :=
  match p with
  | DoFill => fill throws h styles
  | DoStroke => stroke throws h styles
  end.

(** The calls of the callback that [fill] or [stroke] passes to [open],
    written out as a list, for a lookup [use]. *)
Definition body (p : primitive) (use : string → value) : list call :=
  match p with
  | DoFill => [Assign "fillStyle" (use "paint"); Fill]
  | DoStroke =>
      [Assign "strokeStyle" (use "paint");
       Assign "lineWidth" (use "width");
       Assign "lineCap" (use "cap");
       Assign "lineJoin" (use "join");
       Assign "miterLimit" (use "miterLimit")]
      ++ (if truthy (use "clip") then [Clip] else [])
      ++ [Stroke]
  end.

(** The context fields a non-empty dispatch assigns, each with the style
    property it is looked up from. *)
Definition assigned (p : primitive) : list (string * string) :=
  [("globalAlpha", "alpha"); ("globalCompositeOperation", "blendMode")]
  ++ match p with
     | DoFill => [("fillStyle", "paint")]
     | DoStroke =>
         [("strokeStyle", "paint"); ("lineWidth", "width");
          ("lineCap", "cap"); ("lineJoin", "join");
          ("miterLimit", "miterLimit")]
     end.

(** One dispatch on a context with no earlier calls. *)
Definition run {A} (m : @M unit call A) : result unit call A := m tt [].

(** The lookup a dispatch on [styles] works with. *)
Definition lookup (h : heap) (styles : styles_arg) : string → value :=
  if (length (flat styles) =? 0)%nat then λ _, VUndefined
  else use h (resolve_styles h (flat styles)).

(** All the calls of one dispatch in order, as far as it gets when none
    of them throws (see [dispatch_plan]). *)
Definition plan (h : heap) (p : primitive) (styles : styles_arg) : list call :=
  if (length (flat styles) =? 0)%nat then body p (lookup h styles)
  else
    [Save;
     Assign "globalAlpha" (lookup h styles "alpha");
     Assign "globalCompositeOperation" (lookup h styles "blendMode")]
    ++ body p (lookup h styles) ++ [Restore].

(** A context none of whose calls throws. *)
Definition quiet : list call → call → bool := λ _ _, false.

(** A context whose [fill()] and [stroke()] throw. *)
Definition broken : list call → call → bool :=
  λ _ c, match c with Fill | Stroke => true | _ => false end.

End Paint.

(** ** The methods added to [Graphics.prototype] *)

Module Hooks.

(** Calls on the graphics object, the textures, the matrices and the
    renderers. [NewCanvasRenderer r] is [new CanvasRenderer()] giving the
    object [r]. *)
Inductive event :=
| GetLocalBounds (this : loc)
| CreateRenderTexture (scaleMode resolution : value)
| NewCanvasRenderer (r : loc)
| UpdateLocalTransform (this : loc)
| CopyToTempMatrix (this : loc)
| InvertTempMatrix
| Render (r this : loc)
| TextureFrom (scaleMode : value)
| SetResolution (resolution : value)
| FinishPoly (this : loc)
| PluginRender (renderer this : loc).

(** The module-level [let canvasRenderer], [undefined] until assigned, and
    the reference the next [new] will give. *)
Record globals := Globals {
  canvasRenderer : option loc;
  next_ref : loc
}.

Definition initial : globals := Globals None 1%positive.

(** [v === true]. *)
Definition is_true (v : value) : bool :=
  match v with
  | VBool true => true
  | _ => false
  end.

Section Methods.
Variable throws : list event → event → bool.

(** [canvasRenderer = new CanvasRenderer()]. *)
Definition new_CanvasRenderer : M (Σ:=globals) (E:=event) unit :=
  σ ← get;
  let r := next_ref σ in
  invoke throws (NewCanvasRenderer r) ;;
  put (Globals (Some r) (Pos.succ r)).

Definition generateCanvasTexture (this : loc) (scaleMode resolution : value)
  : M (Σ:=globals) (E:=event) unit :=
  let resolution :=
    match resolution with VUndefined => VNumber 1 | _ => resolution end in
  invoke throws (GetLocalBounds this) ;;
  invoke throws (CreateRenderTexture scaleMode resolution) ;;
  σ ← get;
  (if canvasRenderer σ is None then new_CanvasRenderer else mret tt) ;;
  invoke throws (UpdateLocalTransform this) ;;
  invoke throws (CopyToTempMatrix this) ;;
  invoke throws InvertTempMatrix ;;
  σ ← get;
  (if canvasRenderer σ is Some r then invoke throws (Render r this) else throw) ;;
  invoke throws (TextureFrom scaleMode) ;;
  invoke throws (SetResolution resolution).

(** A sequence of calls of [generateCanvasTexture], on the objects
    [objs] in turn; a call that throws does not stop the later ones. *)
Fixpoint generate_each (objs : list loc) (scaleMode resolution : value)
  : M (Σ:=globals) (E:=event) unit :=
  match objs with
  | [] => mret tt
  | this :: rest =>
      attempt (generateCanvasTexture this scaleMode resolution) ;;
      generate_each rest scaleMode resolution
  end.

Definition _renderCanvas (h : heap) (this renderer : loc)
  : M (Σ:=globals) (E:=event) unit :=
  if is_true (get_prop h this "isMask") then mret tt
  else
    invoke throws (FinishPoly this) ;;
    invoke throws (PluginRender renderer this).
End Methods.

Definition is_new (e : event) : bool :=
  match e with NewCanvasRenderer _ => true | _ => false end.

(** How many renderers the calls in [t] constructed. *)
Definition constructions (t : list event) : nat := length (filter is_new t).

(** The renderers that [render] was called on in [t]. *)
Definition rendered_on (t : list event) : list loc :=
  omap (λ e, match e with Render r _ => Some r | _ => None end) t.

Definition quiet : list event → event → bool := λ _ _, false.

End Hooks.

(** ** Tinted *)

Module Tint.

(** [ToInt32] of an integer: wrap-around into the signed 32-bit range. *)
Definition int32 (z : Z) : Z := ((z + 2 ^ 31) mod 2 ^ 32 - 2 ^ 31)%Z.

(** An integer as a JavaScript number, a binary64 float; the integers the
    function converts are 32-bit, so the conversion is exact. *)
Definition number (z : Z) : float :=
  if (z <? 0)%Z
  then PrimFloat.opp (PrimFloat.of_uint63 (Uint63.of_Z (- z)))
  else PrimFloat.of_uint63 (Uint63.of_Z z).

(** The integer part of a number, towards zero; 0 for NaN and the
    infinities, as [ToInt32] has it. *)
Definition trunc (x : float) : Z :=
  match Prim2SF x with
  | S754_finite s m e =>
      let z := if (e <? 0)%Z then Z.shiftr (Zpos m) (- e)
               else Z.shiftl (Zpos m) e in
      if s then (- z)%Z else z
  | _ => 0%Z
  end.

(** [ToInt32] of a number, which [<<] applies to its left operand. *)
Definition ToInt32 (x : float) : Z := int32 (trunc x).

(** [Tinted(tint)(color)], for integer [tint] and [color]. [>>], [&] and [|]
    work on [ToInt32] of their operands, [<<] returns a 32-bit integer, [/],
    [*] and [+] are the operations of binary64. *)
Definition Tinted (tint : Z) : Z → float :=
  let tintR := (number (Z.land (Z.shiftr (int32 tint) 16) 255) / 255)%float in
  let tintG := (number (Z.land (Z.shiftr (int32 tint) 8) 255) / 255)%float in
  let tintB := (number (Z.land (int32 tint) 255) / 255)%float in
  λ color,
    let c := int32 color in
    (number (int32 (Z.shiftl
       (ToInt32 (number (Z.land (Z.shiftr c 16) 255) / 255 * tintR * 255)) 16))
     + number (int32 (Z.shiftl
       (ToInt32 (number (Z.land (Z.shiftr c 8) 255) / 255 * tintG * 255)) 8))
     + number (Z.land c 255) / 255 * tintB * 255)%float.

(** One channel [k] of the colour under the channel [t] of the tint. *)
Definition channel (k t : Z) : float :=
  (number k / 255 * (number t / 255) * 255)%float.

(** The values of a channel, 0 to 255. *)
Definition bytes : list Z :=
  Eval vm_compute in List.map Z.of_nat (List.seq 0 256).

(** The channel of an integer at bit [n]: [(x >> n) & 0xFF]. *)
Definition byte_at (n x : Z) : Z := Z.land (Z.shiftr x n) 255.

(** A tinted channel put back at bit [n]: [channel << n], as a number. *)
Definition part (n k t : Z) : float :=
  number (int32 (Z.shiftl (ToInt32 (channel k t)) n)).

(** Decidable checks over all channel values, each run once. *)
Definition for_bytes (P : Z → bool) : bool := List.forallb P bytes.

Definition for_bytes2 (P : Z → Z → bool) : bool :=
  for_bytes (λ k, for_bytes (P k)).

Definition white_ok (k : Z) : bool :=
  PrimFloat.Leibniz.eqb (part 16 k 255) (number (Z.shiftl k 16))
  && PrimFloat.Leibniz.eqb (part 8 k 255) (number (Z.shiftl k 8))
  && PrimFloat.Leibniz.eqb (channel k 255) (number k).

Definition black_ok (k : Z) : bool :=
  PrimFloat.Leibniz.eqb (part 16 k 0) 0%float
  && PrimFloat.Leibniz.eqb (part 8 k 0) 0%float
  && PrimFloat.Leibniz.eqb (channel k 0) 0%float
  && PrimFloat.Leibniz.eqb (part 16 0 k) 0%float
  && PrimFloat.Leibniz.eqb (part 8 0 k) 0%float
  && PrimFloat.Leibniz.eqb (channel 0 k) 0%float.

Definition bounded_at (m : Z) (x : float) : bool :=
  let v := ToInt32 x in
  (0 <=? v)%Z && (v <=? m)%Z
  && PrimFloat.leb 0%float x && PrimFloat.leb x (number m).

Definition bounded_ok (k t : Z) : bool := bounded_at (Z.min k t) (channel k t).

Definition symmetric_ok (k t : Z) : bool :=
  PrimFloat.Leibniz.eqb (channel k t) (channel t k).

End Tint.

(** ** Reachability through [use] lists *)

(** The styles that [roots] lead to: the roots themselves and, for each
    style reached, the entries of its [use] list. *)
Inductive reach (h : heap) (roots : list loc) : loc → Prop :=
| reach_root s : s ∈ roots → reach h roots s
| reach_use s u x : reach h roots s → use_of h s = Some u → x ∈ u → reach h roots x.

(** The styles that [roots] lead to along styles outside [seen]: a root
    outside [seen], or an entry outside [seen] of the [use] list of a style
    so reached. *)
Inductive reach_avoiding (h : heap) (seen : gset loc) (roots : list loc)
  : loc → Prop :=
| avoid_root x : x ∈ roots → x ∉ seen → reach_avoiding h seen roots x
| avoid_use s u x :
    reach_avoiding h seen roots s → use_of h s = Some u → x ∈ u → x ∉ seen →
    reach_avoiding h seen roots x.

(** A style as [IStyle<S>] declares it: its [use] is an array of styles, or
    falsy. *)
Definition well_typed_use (h : heap) (s : loc) : Prop :=
  truthy (get_prop h s "use") = true → ∃ l, get_prop h s "use" = VArray l.

(** The property names that [resolve], [open], [fill] and [stroke] read of a
    style. *)
Definition read_names : list string :=
  ["use"; "alpha"; "blendMode"; "paint"; "width"; "cap"; "join";
   "miterLimit"; "clip"].

(** ** Counting [save()] and [restore()] *)

Definition is_save (c : Paint.call) : bool :=
  match c with Paint.Save => true | _ => false end.

Definition is_restore (c : Paint.call) : bool :=
  match c with Paint.Restore => true | _ => false end.

Definition saves (t : list Paint.call) : nat := length (filter is_save t).

Definition restores (t : list Paint.call) : nat := length (filter is_restore t).

(** ** Example stores *)

Definition num (n : Z) (d : positive) : value := VNumber (n # d).

(** [a = {use: [b]}], [b = {use: [a]}]. *)
Definition cyc_heap : heap :=
  {[ 1%positive := {[ "use" := VArray [2%positive] ]};
     2%positive := {[ "use" := VArray [1%positive] ]} ]}.

(** [A = {paint: "blue", use: [B]}], [B = {paint: "red", alpha: 0.5}]. *)
Definition ab_heap : heap :=
  {[ 1%positive := {[ "paint" := VString "blue"; "use" := VArray [2%positive] ]};
     2%positive := {[ "paint" := VString "red"; "alpha" := num 1 2 ]} ]}.

(** [{paint: "red"}] and [{alpha: 0.5}]. *)
Definition plain_heap : heap :=
  {[ 1%positive := {[ "paint" := VString "red" ]};
     2%positive := {[ "alpha" := num 1 2 ]} ]}.

(** * Facts about [resolve] *)

Example resolve_cyc : resolve_styles cyc_heap [1%positive] = [1%positive; 2%positive].
Proof. vm_compute. reflexivity. Qed.

Example resolve_ab : resolve_styles ab_heap [1%positive] = [1%positive; 2%positive].
Proof. vm_compute. reflexivity. Qed.

Lemma resolve_S f h styles seen :
  resolve (S f) h styles seen = resolve_loop f h styles seen [].
Proof. reflexivity. Qed.

Lemma resolve_loop_acc f h styles : ∀ seen res,
  resolve_loop f h styles seen res = onto res <$> resolve_loop f h styles seen [].
Proof.
  induction styles as [|s rest IH]; intros seen res; simpl.
  - unfold onto; simpl. by rewrite app_nil_r.
  - case_decide; [apply IH|].
    destruct (use_of h s) as [u|].
    + destruct (resolve f h u ({[s]} ∪ seen)) as [[sub seen2]|]; [|done].
      rewrite (IH seen2 ((res ++ [s]) ++ sub)), (IH seen2 (s :: sub)).
      destruct (resolve_loop f h rest seen2 []) as [[r sn]|]; [|done].
      unfold onto; simpl. by rewrite <- !app_assoc.
    + rewrite (IH ({[s]} ∪ seen) (res ++ [s])), (IH ({[s]} ∪ seen) [s]).
      destruct (resolve_loop f h rest ({[s]} ∪ seen) []) as [[r sn]|]; [|done].
      unfold onto; simpl. by rewrite <- !app_assoc.
Qed.

(** The loop, one style at a time. *)
Lemma resolve_nil f h seen : resolve (S f) h [] seen = Some ([], seen).
Proof. reflexivity. Qed.

Lemma resolve_cons_seen f h s rest seen :
  s ∈ seen → resolve (S f) h (s :: rest) seen = resolve (S f) h rest seen.
Proof. intros Hs. rewrite !resolve_S. simpl. by rewrite decide_True. Qed.

Lemma resolve_cons_leaf f h s rest seen :
  s ∉ seen → use_of h s = None →
  resolve (S f) h (s :: rest) seen
  = onto [s] <$> resolve (S f) h rest ({[s]} ∪ seen).
Proof.
  intros Hs Hu. rewrite !resolve_S. simpl.
  rewrite decide_False, Hu by done. apply resolve_loop_acc.
Qed.

Lemma resolve_cons_use f h s rest seen u :
  s ∉ seen → use_of h s = Some u →
  resolve (S f) h (s :: rest) seen
  = match resolve f h u ({[s]} ∪ seen) with
    | Some (sub, seen2) => onto (s :: sub) <$> resolve (S f) h rest seen2
    | None => None
    end.
Proof.
  intros Hs Hu. rewrite !resolve_S. simpl.
  rewrite decide_False, Hu by done.
  destruct (resolve f h u ({[s]} ∪ seen)) as [[sub seen2]|]; [|done].
  apply resolve_loop_acc.
Qed.

(** What one run of [resolve] guarantees: [seen] grows by exactly the styles
    returned, none of them was seen before, none is returned twice, and every
    style of the input ends up seen. *)
Lemma resolve_inv f h : ∀ styles seen res seen',
  resolve f h styles seen = Some (res, seen') →
  seen' = seen ∪ list_to_set res ∧ NoDup res
  ∧ (∀ x, x ∈ res → x ∉ seen) ∧ (∀ x, x ∈ styles → x ∈ seen').
Proof.
  induction f as [|f IHf]; [done|].
  induction styles as [|s rest IH]; intros seen res seen' H.
  - rewrite resolve_nil in H. simplify_eq.
    split_and!; [set_solver | constructor | set_solver | set_solver].
  - destruct (decide (s ∈ seen)) as [Hs|Hs].
    { rewrite resolve_cons_seen in H by done.
      apply IH in H as (-> & ? & ? & ?). split_and!; [done..|set_solver]. }
    destruct (use_of h s) as [u|] eqn:Hu.
    + rewrite (resolve_cons_use _ _ _ _ _ u) in H by done.
      destruct (resolve f h u ({[s]} ∪ seen)) as [[sub seen2]|] eqn:Hsub; [|done].
      destruct (resolve (S f) h rest seen2) as [[r sn]|] eqn:Hr; [|done].
      unfold onto in H; simpl in H. simplify_eq.
      apply IHf in Hsub as (-> & Hnd1 & Hfresh1 & _).
      apply IH in Hr as (-> & Hnd2 & Hfresh2 & Hin2).
      split_and!.
      * set_solver.
      * apply NoDup_cons. split; [set_solver|].
        apply NoDup_app. split_and!; [done | set_solver | done].
      * set_solver.
      * set_solver.
    + rewrite resolve_cons_leaf in H by done.
      destruct (resolve (S f) h rest ({[s]} ∪ seen)) as [[r sn]|] eqn:Hr; [|done].
      unfold onto in H; simpl in H. simplify_eq.
      apply IH in Hr as (-> & Hnd2 & Hfresh2 & Hin2).
      split_and!.
      * set_solver.
      * apply NoDup_cons. split; [set_solver|done].
      * set_solver.
      * set_solver.
Qed.

Lemma use_of_in_dom h s u : use_of h s = Some u → s ∈ dom h.
Proof.
  unfold use_of, get_prop. intros H. apply elem_of_dom.
  destruct (h !! s) eqn:Hs; [eauto | done].
Qed.

(** [resolve] returns: fuel above the number of stored styles not yet seen
    is never exhausted. *)
Lemma resolve_enough_fuel f h : ∀ styles seen,
  size (dom h ∖ seen) < f → is_Some (resolve f h styles seen).
Proof.
  induction f as [|f IHf]; [lia|].
  induction styles as [|s rest IH]; intros seen Hsz.
  - rewrite resolve_nil. eauto.
  - destruct (decide (s ∈ seen)) as [Hs|Hs].
    { rewrite resolve_cons_seen by done. by apply IH. }
    destruct (use_of h s) as [u|] eqn:Hu.
    + rewrite (resolve_cons_use _ _ _ _ _ u) by done.
      assert (size (dom h ∖ ({[s]} ∪ seen)) < f) as Hlt.
      { apply use_of_in_dom in Hu.
        assert (dom h ∖ ({[s]} ∪ seen) ⊂ dom h ∖ seen) as Hsub by set_solver.
        apply subset_size in Hsub. lia. }
      destruct (IHf u _ Hlt) as [[sub seen2] Hsub]. rewrite Hsub.
      apply resolve_inv in Hsub as (-> & _).
      destruct (IH (({[s]} ∪ seen) ∪ list_to_set sub)) as [[r sn] Hr].
      { eapply Nat.le_lt_trans; [|exact Hsz]. apply subseteq_size. set_solver. }
      rewrite Hr. eauto.
    + rewrite resolve_cons_leaf by done.
      destruct (IH ({[s]} ∪ seen)) as [[r sn] Hr].
      { eapply Nat.le_lt_trans; [|exact Hsz]. apply subseteq_size. set_solver. }
      rewrite Hr. eauto.
Qed.

(** More fuel does not change a result. *)
Lemma resolve_more_fuel f h : ∀ f' styles seen r,
  resolve f h styles seen = Some r → (f ≤ f')%nat → resolve f' h styles seen = Some r.
Proof.
  induction f as [|f IHf]; [done|].
  intros [|f'] styles seen r H Hle; [lia|].
  revert seen r H.
  induction styles as [|s rest IH]; intros seen r H.
  - by rewrite resolve_nil in *.
  - destruct (decide (s ∈ seen)) as [Hs|Hs].
    { rewrite resolve_cons_seen in H by done.
      rewrite resolve_cons_seen by done. by apply IH. }
    destruct (use_of h s) as [u|] eqn:Hu.
    + rewrite (resolve_cons_use _ _ _ _ _ u) in H by done.
      rewrite (resolve_cons_use _ _ _ _ _ u) by done.
      destruct (resolve f h u ({[s]} ∪ seen)) as [[sub seen2]|] eqn:Hsub;
        [|discriminate].
      rewrite (IHf f' _ _ _ Hsub) by lia.
      destruct (resolve (S f) h rest seen2) as [r'|] eqn:Hr; [|discriminate].
      by rewrite (IH _ _ Hr).
    + rewrite resolve_cons_leaf in H by done.
      rewrite resolve_cons_leaf by done.
      destruct (resolve (S f) h rest ({[s]} ∪ seen)) as [r'|] eqn:Hr;
        [|discriminate].
      by rewrite (IH _ _ Hr).
Qed.

Lemma resolve_fuel_enough h seen : size (dom h ∖ seen) < resolve_fuel h.
Proof. unfold resolve_fuel. apply Nat.lt_succ_r, subseteq_size. set_solver. Qed.

(** [resolve_with] is what [resolve] returns at any sufficient fuel. *)
Lemma resolve_with_spec h styles seen f :
  (resolve_fuel h ≤ f)%nat →
  resolve f h styles seen = Some (resolve_with h styles seen).
Proof.
  intros Hle. unfold resolve_with.
  destruct (resolve_enough_fuel _ h styles seen (resolve_fuel_enough h seen))
    as [r Hr].
  rewrite Hr. simpl. by apply (resolve_more_fuel _ _ _ _ _ _ Hr).
Qed.

Lemma resolve_with_of h styles seen f r :
  resolve f h styles seen = Some r → resolve_with h styles seen = r.
Proof.
  intros H.
  pose proof (resolve_with_spec h styles seen (f `max` resolve_fuel h)) as H1.
  rewrite (resolve_more_fuel _ _ (f `max` resolve_fuel h) _ _ _ H) in H1 by lia.
  symmetry. apply (inj Some), H1. lia.
Qed.

(** Depth-first, pre-order: wherever a style [s] stands in the output, it is
    followed at once by what [resolve] returns for [s.use] on the styles seen
    so far, that is by the styles first reached through its use chain. *)
Lemma resolve_block f h : ∀ styles seen res seen',
  resolve f h styles seen = Some (res, seen') →
  ∀ pre s post, res = pre ++ s :: post →
  ∃ post',
    post = (resolve_with h (default [] (use_of h s))
              (seen ∪ list_to_set (pre ++ [s]))).1 ++ post'.
Proof.
  induction f as [|f IHf]; [done|].
  induction styles as [|s0 rest IH]; intros seen res seen' H pre s post Hres.
  - rewrite resolve_nil in H. injection H as <- <-. by destruct pre.
  - destruct (decide (s0 ∈ seen)) as [Hs|Hs].
    { rewrite resolve_cons_seen in H by done. by eapply IH. }
    destruct (use_of h s0) as [u|] eqn:Hu.
    + rewrite (resolve_cons_use _ _ _ _ _ u) in H by done.
      destruct (resolve f h u ({[s0]} ∪ seen)) as [[sub seen2]|] eqn:Hsub;
        [|discriminate].
      destruct (resolve (S f) h rest seen2) as [[r sn]|] eqn:Hr; [|discriminate].
      unfold onto in H; simpl in H. injection H as <- <-.
      pose proof (resolve_inv _ _ _ _ _ _ Hsub) as (Hseen2 & _).
      destruct pre as [|p pre']; simpl in Hres; injection Hres as Hhd Hres.
      * subst s0 post. exists r. rewrite Hu. simpl.
        replace (seen ∪ _) with ({[s]} ∪ seen : gset loc) by set_solver.
        by rewrite (resolve_with_of _ _ _ _ _ Hsub).
      * subst p seen2.
        apply app_eq_inv in Hres as [(k & Hk1 & Hk2)|(k & Hk1 & Hk2)].
        -- destruct k as [|k0 k']; simpl in Hk2.
           ++ rewrite app_nil_r in Hk1. subst sub.
              destruct (IH _ _ _ Hr [] s post (eq_sym Hk2)) as [post' ->].
              exists post'. f_equal. f_equal. f_equal.
              set_solver.
           ++ injection Hk2 as <- ->.
              destruct (IHf _ _ _ _ Hsub pre' s k' Hk1) as [post' ->].
              exists (post' ++ r). rewrite (assoc_L (++)). f_equal.
              f_equal. f_equal. f_equal. set_solver.
        -- subst pre' r.
           destruct (IH _ _ _ Hr k s post eq_refl) as [post' ->].
           exists post'. f_equal. f_equal. f_equal.
           set_solver.
    + rewrite resolve_cons_leaf in H by done.
      destruct (resolve (S f) h rest ({[s0]} ∪ seen)) as [[r sn]|] eqn:Hr;
        [|discriminate].
      unfold onto in H; simpl in H. injection H as <- <-.
      destruct pre as [|p pre']; simpl in Hres; injection Hres as Hhd Hres.
      * subst s0 post. exists r. rewrite Hu. simpl.
        unfold resolve_with, resolve_fuel. done.
      * subst p r.
        destruct (IH _ _ _ Hr pre' s post eq_refl) as [post' ->].
        exists post'. f_equal. f_equal. f_equal. set_solver.
Qed.

Lemma resolve_styles_spec h styles f :
  (resolve_fuel h ≤ f)%nat →
  ∃ seen', resolve f h styles ∅ = Some (resolve_styles h styles, seen').
Proof.
  intros Hle. exists (resolve_with h styles ∅).2.
  rewrite (resolve_with_spec h styles ∅ f Hle).
  unfold resolve_styles. by destruct (resolve_with h styles ∅).
Qed.

Lemma resolve_styles_NoDup h styles : NoDup (resolve_styles h styles).
Proof.
  destruct (resolve_styles_spec h styles _ (Nat.le_refl _)) as [seen' H].
  by apply resolve_inv in H as (_ & ? & _).
Qed.

(** Without [use] lists and without repeats, from any [seen] that holds none
    of the input, the loop pushes the input as it stands. *)
Lemma resolve_flat f h : ∀ styles seen,
  NoDup styles → (∀ s, s ∈ styles → use_of h s = None ∧ s ∉ seen) →
  resolve (S f) h styles seen = Some (styles, seen ∪ list_to_set styles).
Proof.
  induction styles as [|s rest IH]; intros seen Hnd Hall.
  - rewrite resolve_nil. f_equal. f_equal. set_solver.
  - apply NoDup_cons in Hnd as [Hs Hnd].
    destruct (Hall s) as [Hu Hseen]; [set_solver|].
    rewrite resolve_cons_leaf by done.
    rewrite IH; [|done|].
    + unfold onto; simpl. f_equal. f_equal. set_solver.
    + intros x Hx. destruct (Hall x) as [? ?]; [set_solver|].
      split; [done|]. set_solver.
Qed.

Lemma has_prop_false_get h s prop : has_prop h s prop = false → get_prop h s prop = VUndefined.
Proof.
  unfold has_prop, get_prop. destruct (h !! s) as [o|]; [|done].
  intros H. apply bool_decide_eq_false in H.
  destruct (o !! prop); [|done]. exfalso. apply H. eauto.
Qed.

Lemma no_use_prop h s : has_prop h s "use" = false → use_of h s = None.
Proof. intros H. unfold use_of. by rewrite has_prop_false_get. Qed.

(** C2. When [a] uses [b] and [b] uses [a], [resolve([a])] returns at every
    sufficient fuel, and its output is [a], then styles other than [a] and
    [b], then [b], then styles other than [a] and [b]: each of the two
    exactly once, [a] before [b]. *)
Theorem resolve_cycle (h : heap) (a b : loc) (ua ub : list loc) :
  a ≠ b →
  use_of h a = Some ua → b ∈ ua →
  use_of h b = Some ub → a ∈ ub →
  (∀ f, (resolve_fuel h ≤ f)%nat →
        ∃ seen', resolve f h [a] ∅ = Some (resolve_styles h [a], seen'))
  ∧ ∃ l1 l2, resolve_styles h [a] = a :: (l1 ++ (b :: l2))
             ∧ (a ∉ l1 ++ l2) ∧ (b ∉ l1 ++ l2).
Proof.
  intros Hab Hua Hb Hub Ha.
  split; [intros f Hf; by apply resolve_styles_spec|].
  pose proof (resolve_styles_NoDup h [a]) as Hnd.
  destruct (resolve_styles_spec h [a] _ (Nat.le_refl _)) as [seen' H].
  unfold resolve_fuel in H.
  rewrite (resolve_cons_use _ _ _ _ _ ua) in H by set_solver.
  destruct (resolve (size (dom h)) h ua ({[a]} ∪ ∅)) as [[sub seen2]|] eqn:Hsub;
    [|discriminate].
  rewrite resolve_nil in H. unfold onto in H; simpl in H.
  rewrite app_nil_r in H. injection H as H _.
  apply resolve_inv in Hsub as (-> & _ & _ & Hin).
  assert (b ∈ sub) as Hbs by (specialize (Hin b Hb); set_solver).
  apply list_elem_of_split in Hbs as (l1 & l2 & ->).
  exists l1, l2. split; [done|].
  rewrite <- H in Hnd.
  apply NoDup_cons in Hnd as [Ha' Hnd].
  apply NoDup_app in Hnd as (_ & Hd & Hnd2).
  apply NoDup_cons in Hnd2 as [Hb' _].
  split.
  - intros Hx. apply Ha'. set_solver.
  - intros [Hx|Hx]%elem_of_app; [|done]. apply (Hd b Hx). set_solver.
Qed.

Lemma resolve_cycle_witness :
  (∀ f, (resolve_fuel cyc_heap ≤ f)%nat →
        ∃ seen', resolve f cyc_heap [1%positive] ∅
                 = Some (resolve_styles cyc_heap [1%positive], seen'))
  ∧ ∃ l1 l2, resolve_styles cyc_heap [1%positive]
             = 1%positive :: (l1 ++ (2%positive :: l2))
             ∧ (1%positive ∉ l1 ++ l2) ∧ (2%positive ∉ l1 ++ l2).
Proof.
  apply (resolve_cycle cyc_heap 1%positive 2%positive [2%positive] [1%positive]).
  - discriminate.
  - vm_compute. reflexivity.
  - apply list_elem_of_here.
  - vm_compute. reflexivity.
  - apply list_elem_of_here.
Defined.

(** C5. On a list without repeats whose styles have no [use] list,
    [resolve] returns the list itself. *)
Theorem resolve_flat_identity (h : heap) (styles : list loc) :
  NoDup styles →
  (∀ s, s ∈ styles → use_of h s = None) →
  resolve_styles h styles = styles.
Proof.
  intros Hnd Hall. unfold resolve_styles, resolve_with, resolve_fuel.
  rewrite resolve_flat; [done|done|].
  intros s Hs. split; [by apply Hall | set_solver].
Qed.

Lemma resolve_flat_identity_witness :
  resolve_styles plain_heap [2%positive; 1%positive] = [2%positive; 1%positive].
Proof.
  apply resolve_flat_identity.
  - apply (bool_decide_unpack _). vm_compute. reflexivity.
  - intros s Hs.
    apply elem_of_cons in Hs as [->|Hs]; [vm_compute; reflexivity|].
    apply elem_of_cons in Hs as [->|Hs]; [vm_compute; reflexivity|].
    by apply elem_of_nil in Hs.
Defined.

(** * Facts about the lookup [use] *)

Lemma use_skip h pre rest prop :
  (∀ x, x ∈ pre → has_prop h x prop = false) →
  Paint.use h (pre ++ rest) prop = Paint.use h rest prop.
Proof.
  induction pre as [|x pre IH]; intros Hpre; [done|].
  simpl. rewrite (Hpre x) by set_solver. apply IH. set_solver.
Qed.

Lemma use_undefined h styles prop :
  (∀ x, x ∈ styles → has_prop h x prop = false) →
  Paint.use h styles prop = VUndefined.
Proof.
  intros H. rewrite <- (app_nil_r styles). by rewrite use_skip.
Qed.

(** Writing to one object leaves the fields of every other object alone. *)
Lemma has_prop_other (h : heap) s' o' x prop :
  x ≠ s' → has_prop (<[s' := o']> h) x prop = has_prop h x prop.
Proof. intros Hx. unfold has_prop, heap in *. by rewrite lookup_insert_ne. Qed.

Lemma get_prop_other (h : heap) s' o' x prop :
  x ≠ s' → get_prop (<[s' := o']> h) x prop = get_prop h x prop.
Proof. intros Hx. unfold get_prop, heap in *. by rewrite lookup_insert_ne. Qed.

(** C3. In a list without repeats (as [resolve] returns), [use(prop)] is the
    value of [prop] in the first style that has it, and stays that value
    whatever is written to [prop] in a style further down the list. *)
Theorem use_first_match (h : heap) (pre : list loc) (s : loc) (post : list loc)
    (prop : string) :
  NoDup (pre ++ s :: post) →
  (∀ x, x ∈ pre → has_prop h x prop = false) →
  has_prop h s prop = true →
  Paint.use h (pre ++ s :: post) prop = get_prop h s prop
  ∧ ∀ s' o v, s' ∈ post → h !! s' = Some o →
      Paint.use (<[s' := <[prop := v]> o]> h) (pre ++ s :: post) prop
      = get_prop h s prop.
Proof.
  intros Hnd Hpre Hs. split.
  - rewrite use_skip by done. simpl. by rewrite Hs.
  - intros s' o v Hs' Ho.
    apply NoDup_app in Hnd as (_ & Hdis & Hnd).
    apply NoDup_cons in Hnd as [Hsp _].
    assert (s ≠ s') as Hne by (intros ->; done).
    rewrite use_skip.
    + simpl. rewrite has_prop_other, get_prop_other by done. by rewrite Hs.
    + intros x Hx. rewrite has_prop_other; [by apply Hpre|].
      intros ->. apply (Hdis s' Hx). set_solver.
Qed.

Lemma use_first_match_witness :
  Paint.use ab_heap ([] ++ 1%positive :: [2%positive]) "paint" = VString "blue"
  ∧ Paint.use (<[2%positive := <["paint" := VString "green"]>
                   {[ "paint" := VString "red"; "alpha" := num 1 2 ]}]> ab_heap)
      ([] ++ 1%positive :: [2%positive]) "paint" = VString "blue".
Proof.
  assert (NoDup ([] ++ 1%positive :: [2%positive])) as Hnd.
  { apply (bool_decide_unpack _). vm_compute. reflexivity. }
  assert (∀ x : loc, x ∈ [] → has_prop ab_heap x "paint" = false) as Hpre.
  { intros x Hx. by apply elem_of_nil in Hx. }
  assert (has_prop ab_heap 1%positive "paint" = true) as Hs.
  { vm_compute. reflexivity. }
  destruct (use_first_match ab_heap [] 1%positive [2%positive] "paint"
              Hnd Hpre Hs) as [H1 H2].
  split; [exact H1|].
  apply (H2 2%positive). { apply list_elem_of_here. }
  vm_compute. reflexivity.
Defined.

(** * Facts about calls *)

Section CallFacts.
Context {Σ E : Type}.
Variable throws : list E → E → bool.

(** A block of calls runs up to its first call that throws, and that call
    is the last one made. *)
Lemma invoke_all_spec (cs : list E) : ∀ (σ : Σ) (t : list E),
  final (invoke_all throws cs σ t) = σ
  ∧ ∃ made rest,
      cs = made ++ rest
      ∧ trace (invoke_all throws cs σ t) = t ++ made
      ∧ (out (invoke_all throws cs σ t) = Returned tt → rest = [])
      ∧ (rest = [] ∨ ∃ pre c, made = pre ++ [c])
      ∧ (∀ pre c post, made = pre ++ c :: post → throws (t ++ pre) c = true →
           post = [] ∧ out (invoke_all throws cs σ t) = Thrown).
Proof.
  induction cs as [|c cs IH]; intros σ t.
  - split; [done|]. exists [], []. simpl. rewrite app_nil_r.
    split_and!; [done.. | by left |]. intros pre c post H. by destruct pre.
  - simpl. unfold bind, invoke. simpl.
    destruct (throws t c) eqn:Hc; simpl.
    + split; [done|]. exists [c], cs.
      split_and!; [done.. | right; by exists [], c |].
      intros [|p pre] c' post H Hthrow; simpl in H.
      * by injection H as <- <-.
      * injection H as _ H. by destruct pre.
    + destruct (IH σ (t ++ [c]))
        as (Hfin & made & rest & -> & Htr & Hret & Hne & Hlast).
      split; [done|]. exists (c :: made), rest.
      split_and!; [done | by rewrite Htr, <- app_assoc | done | |].
      * destruct Hne as [->|(pre & c' & ->)]; [by left|].
        right. by exists (c :: pre), c'.
      * intros [|p pre] c' post H Hthrow; simpl in H.
        -- injection H as <- <-. rewrite app_nil_r in Hthrow. congruence.
        -- injection H as <- H. apply (Hlast pre c' post H).
           by rewrite <- app_assoc.
Qed.
End CallFacts.

(** * Facts about [Paint] *)

Import Paint.

(** [fill] and [stroke] make the calls of [plan], in that order, with
    nothing in between. *)
Lemma dispatch_plan throws h p styles σ t :
  dispatch throws h p styles σ t = invoke_all throws (plan h p styles) σ t.
Proof.
  unfold dispatch, fill, stroke, open, plan, lookup. cbv zeta.
  generalize (use h (resolve_styles h (flat styles))). intros u.
  destruct (length (flat styles) =? 0)%nat; destruct p; unfold body;
    try destruct (truthy _);
    cbn [invoke_all app];
    unfold mbind, M_bind, mret, M_ret, bind, invoke, ret; simpl;
    repeat (match goal with
            | |- context [throws ?t ?c] => destruct (throws t c); simpl
            end);
    reflexivity.
Qed.

(** What one dispatch does to a fresh trace: an initial part of its plan,
    all of it when the dispatch returns, ending at the first call that
    throws otherwise. *)
Lemma run_dispatch throws h p styles :
  ∃ made rest,
    plan h p styles = made ++ rest
    ∧ trace (run (dispatch throws h p styles)) = made
    ∧ (out (run (dispatch throws h p styles)) = Returned tt → rest = [])
    ∧ (rest = [] ∨ ∃ pre c, made = pre ++ [c])
    ∧ (∀ pre c post, made = pre ++ c :: post → throws pre c = true →
         post = [] ∧ out (run (dispatch throws h p styles)) = Thrown).
Proof.
  unfold run. rewrite dispatch_plan.
  destruct (invoke_all_spec throws (plan h p styles) tt [])
    as (_ & made & rest & Hplan & Htr & Hret & Hne & Hlast).
  exists made, rest. split_and!; done.
Qed.

Lemma lookup_nonempty h styles :
  flat styles ≠ [] → lookup h styles = use h (resolve_styles h (flat styles)).
Proof. unfold lookup. by destruct (flat styles). Qed.

Lemma lookup_empty h styles :
  flat styles = [] → lookup h styles = λ _, VUndefined.
Proof. unfold lookup. by intros ->. Qed.

Lemma plan_nonempty h p styles :
  flat styles ≠ [] →
  plan h p styles
  = Save :: ([Assign "globalAlpha" (lookup h styles "alpha");
              Assign "globalCompositeOperation" (lookup h styles "blendMode")]
             ++ body p (lookup h styles)) ++ [Restore].
Proof. unfold plan. destruct (flat styles); [done|]. intros _. reflexivity. Qed.

Lemma plan_empty h p styles :
  flat styles = [] → plan h p styles = body p (λ _, VUndefined).
Proof. intros H. unfold plan. rewrite (lookup_empty _ _ H). by rewrite H. Qed.

Lemma body_no_scope p u : (Save ∉ body p u) ∧ (Restore ∉ body p u).
Proof.
  destruct p; simpl; [|destruct (truthy _); simpl];
    split; intros H; repeat (apply elem_of_cons in H as [H|H]; [discriminate|]);
    by apply elem_of_nil in H.
Qed.

(** C1, where the code departs from it: the context's [fill()] throws, the
    exception leaves [fill], and [restore()] was never called after the
    [save()]. *)
Lemma restore_skipped_on_throw :
  out (run (fill broken ab_heap (One 1%positive))) = Thrown
  ∧ Save ∈ trace (run (fill broken ab_heap (One 1%positive)))
  ∧ Restore ∉ trace (run (fill broken ab_heap (One 1%positive))).
Proof.
  split_and!; [reflexivity | apply list_elem_of_here |].
  intros H. vm_compute in H.
  repeat (apply elem_of_cons in H as [H|H]; [discriminate|]).
  by apply elem_of_nil in H.
Qed.

(** C1, as the code has it. On a non-empty style input, [save()] is the
    first call of [fill] and [stroke]; when the dispatch returns, [restore()]
    is its last call and the only other [save()] or [restore()]; when a call
    other than [restore()] throws, [restore()] is not called. *)
Theorem save_restore_scope throws (h : heap) (p : primitive) (styles : styles_arg) :
  flat styles ≠ [] →
  (∃ rest, trace (run (dispatch throws h p styles)) = Save :: rest)
  ∧ (out (run (dispatch throws h p styles)) = Returned tt →
     ∃ mid, trace (run (dispatch throws h p styles)) = Save :: mid ++ [Restore]
            ∧ (Save ∉ mid) ∧ (Restore ∉ mid))
  ∧ (∀ pre c post,
       trace (run (dispatch throws h p styles)) = pre ++ c :: post →
       throws pre c = true → c ≠ Restore →
       Restore ∉ trace (run (dispatch throws h p styles))).
Proof.
  intros Hne.
  destruct (run_dispatch throws h p styles)
    as (made & rest & Hplan & -> & Hret & Hmade & Hlast).
  rewrite (plan_nonempty _ _ _ Hne) in Hplan.
  set (mid := [Assign "globalAlpha" (lookup h styles "alpha");
               Assign "globalCompositeOperation" (lookup h styles "blendMode")]
              ++ body p (lookup h styles)) in *.
  assert ((Save ∉ mid) ∧ (Restore ∉ mid)) as [HS HR].
  { destruct (body_no_scope p (lookup h styles)) as [H1 H2].
    split; intros H; subst mid;
      apply elem_of_app in H as [H|H]; try done;
      repeat (apply elem_of_cons in H as [H|H]; [discriminate|]);
      by apply elem_of_nil in H. }
  clearbody mid.
  assert (Restore ∉ Save :: mid) as HR'.
  { intros [H|H]%elem_of_cons; [discriminate | done]. }
  split_and!.
  - destruct made as [|c made'].
    + destruct Hmade as [->|(pre & c & Hpc)]; [done | by destruct pre].
    + injection Hplan as <- _. by exists made'.
  - intros Hout. rewrite (Hret Hout), app_nil_r in Hplan. subst made.
    by exists mid.
  - intros pre c post -> Hthrow Hc.
    destruct (Hlast pre c post eq_refl Hthrow) as [-> _].
    change (Save :: mid ++ [Restore]) with ((Save :: mid) ++ [Restore]) in Hplan.
    symmetry in Hplan.
    apply app_eq_inv in Hplan as [(k & Hk1 & Hk2)|(k & Hk1 & Hk2)].
    + destruct k as [|k0 k']; simpl in Hk2.
      * rewrite app_nil_r in Hk1. by rewrite Hk1.
      * injection Hk2 as <- Hk2. destruct k'; [|discriminate].
        apply app_inj_tail in Hk1 as [_ ->]. done.
    + intros Hin. apply HR'. rewrite Hk1. apply elem_of_app. by left.
Qed.

Lemma save_restore_scope_witness :
  (∃ rest, trace (run (dispatch broken ab_heap DoFill (One 1%positive)))
           = Save :: rest)
  ∧ Restore ∉ trace (run (dispatch broken ab_heap DoFill (One 1%positive))).
Proof.
  destruct (save_restore_scope broken ab_heap DoFill (One 1%positive))
    as (H1 & _ & H3); [discriminate|].
  split; [exact H1|].
  apply (H3 [Save; Assign "globalAlpha" (num 1 2);
             Assign "globalCompositeOperation" VUndefined;
             Assign "fillStyle" (VString "blue")] Fill []).
  - vm_compute. reflexivity.
  - reflexivity.
  - discriminate.
Defined.

(** How the trace of a dispatch sits in its plan. *)
Lemma trace_in_plan throws h p styles :
  ∃ rest,
    trace (run (dispatch throws h p styles)) ++ rest = plan h p styles
    ∧ (out (run (dispatch throws h p styles)) = Returned tt → rest = []).
Proof.
  destruct (run_dispatch throws h p styles)
    as (made & rest & Hplan & -> & Hret & _).
  by exists rest.
Qed.

Lemma trace_subset_plan throws h p styles c :
  c ∈ trace (run (dispatch throws h p styles)) → c ∈ plan h p styles.
Proof.
  destruct (trace_in_plan throws h p styles) as (rest & <- & _).
  intros H. apply elem_of_app. by left.
Qed.

(** C6, where the code departs from it: [fill([])] does assign a context
    field, [fillStyle], before it fills. *)
Lemma empty_fill_assigns :
  ¬ ∀ field v, Assign field v ∉ trace (run (fill quiet ∅ (Many []))).
Proof.
  intros H. apply (H "fillStyle" VUndefined). apply list_elem_of_here.
Qed.

(** C6, as the code has it. On an empty style list [fill] and [stroke] make
    no call but those of their callback under the lookup that is always
    [undefined]: no [save()], no [restore()], no [clip()], no assignment to
    [globalAlpha] or [globalCompositeOperation]; each field of the callback
    is assigned [undefined]; and the drawing primitive is the last call of a
    dispatch that returns. *)
Theorem empty_dispatch (throws : list call → call → bool) (h : heap)
    (p : primitive) (styles : styles_arg) :
  flat styles = [] →
  (∃ rest,
     trace (run (dispatch throws h p styles)) ++ rest
     = match p with
       | DoFill => [Assign "fillStyle" VUndefined; Fill]
       | DoStroke =>
           [Assign "strokeStyle" VUndefined; Assign "lineWidth" VUndefined;
            Assign "lineCap" VUndefined; Assign "lineJoin" VUndefined;
            Assign "miterLimit" VUndefined; Stroke]
       end
     ∧ (out (run (dispatch throws h p styles)) = Returned tt → rest = []))
  ∧ (Save ∉ trace (run (dispatch throws h p styles)))
  ∧ (Restore ∉ trace (run (dispatch throws h p styles)))
  ∧ (Clip ∉ trace (run (dispatch throws h p styles)))
  ∧ (∀ field v, Assign field v ∈ trace (run (dispatch throws h p styles)) →
       v = VUndefined ∧ field ≠ "globalAlpha"
       ∧ field ≠ "globalCompositeOperation").
Proof.
  intros Hempty.
  pose proof (plan_empty h p styles Hempty) as Hplan.
  destruct (trace_in_plan throws h p styles) as (rest & Htr & Hret).
  split; [exists rest; split; [|done]; rewrite Htr, Hplan; by destruct p|].
  assert (∀ c, c ∈ trace (run (dispatch throws h p styles)) →
               c ∈ body p (λ _, VUndefined)) as Hin.
  { intros c Hc. rewrite <- Hplan. by eapply trace_subset_plan. }
  split_and!.
  - intros H%Hin. by apply body_no_scope in H.
  - intros H%Hin. by apply body_no_scope in H.
  - intros H%Hin. destruct p; simpl in H;
      repeat (apply elem_of_cons in H as [H|H]; [discriminate|]);
      by apply elem_of_nil in H.
  - intros field v H%Hin. destruct p; simpl in H;
      repeat (apply elem_of_cons in H as [H|H];
              [try discriminate; injection H as -> ->; by split_and!|]);
      by apply elem_of_nil in H.
Qed.

Lemma empty_dispatch_witness :
  trace (run (dispatch quiet ∅ DoStroke (Many [])))
  = [Assign "strokeStyle" VUndefined; Assign "lineWidth" VUndefined;
     Assign "lineCap" VUndefined; Assign "lineJoin" VUndefined;
     Assign "miterLimit" VUndefined; Stroke]
  ∧ (Save ∉ trace (run (dispatch quiet ∅ DoStroke (Many []))))
  ∧ (Restore ∉ trace (run (dispatch quiet ∅ DoStroke (Many [])))).
Proof.
  destruct (empty_dispatch quiet ∅ DoStroke (Many []) eq_refl)
    as ((rest & Htr & Hret) & HS & HR & _).
  split_and!; [|exact HS|exact HR].
  rewrite <- Htr, (Hret eq_refl). by rewrite app_nil_r.
Defined.

Lemma truthy_lookup_nonempty h styles prop :
  truthy (lookup h styles prop) = true → flat styles ≠ [].
Proof.
  intros H Hempty. rewrite (lookup_empty _ _ Hempty) in H. discriminate.
Qed.

(** C7. When the lookup gives a truthy [clip], the calls [stroke] makes are
    an initial part of: [save()], the two global assignments, the five
    stroke assignments from the first-match lookup, [clip()], [stroke()],
    [restore()] (all of them when the dispatch returns), so [clip()] comes
    before [stroke()] and after the assignments. When [clip] is falsy,
    [clip()] is not called. *)
Theorem stroke_clip_order (throws : list call → call → bool) (h : heap)
    (styles : styles_arg) :
  (truthy (lookup h styles "clip") = true →
     lookup h styles = use h (resolve_styles h (flat styles))
     ∧ ∃ rest,
         trace (run (stroke throws h styles)) ++ rest
         = [Save;
            Assign "globalAlpha" (lookup h styles "alpha");
            Assign "globalCompositeOperation" (lookup h styles "blendMode");
            Assign "strokeStyle" (lookup h styles "paint");
            Assign "lineWidth" (lookup h styles "width");
            Assign "lineCap" (lookup h styles "cap");
            Assign "lineJoin" (lookup h styles "join");
            Assign "miterLimit" (lookup h styles "miterLimit");
            Clip; Stroke; Restore]
         ∧ (out (run (stroke throws h styles)) = Returned tt → rest = []))
  ∧ (truthy (lookup h styles "clip") = false →
     Clip ∉ trace (run (stroke throws h styles))).
Proof.
  split; intros Hclip.
  - pose proof (truthy_lookup_nonempty _ _ _ Hclip) as Hne.
    split; [by apply lookup_nonempty|].
    destruct (trace_in_plan throws h DoStroke styles) as (rest & Htr & Hret).
    exists rest. split; [|done].
    change (dispatch throws h DoStroke styles) with (stroke throws h styles) in Htr.
    rewrite Htr, (plan_nonempty _ _ _ Hne). simpl. by rewrite Hclip.
  - intros H. apply (trace_subset_plan throws h DoStroke) in H.
    unfold plan in H. simpl in H. rewrite Hclip in H.
    destruct (length (flat styles) =? 0)%nat; simpl in H;
      repeat (apply elem_of_cons in H as [H|H]; [discriminate|]);
      by apply elem_of_nil in H.
Qed.

(** [{paint: "red", width: 2, clip: true}]. *)
Lemma stroke_clip_order_witness :
  trace (run (stroke quiet {[ 1%positive :=
            {[ "paint" := VString "red"; "width" := num 2 1;
               "clip" := VBool true ]} ]} (Many [1%positive])))
  = [Save;
     Assign "globalAlpha" VUndefined;
     Assign "globalCompositeOperation" VUndefined;
     Assign "strokeStyle" (VString "red");
     Assign "lineWidth" (num 2 1);
     Assign "lineCap" VUndefined;
     Assign "lineJoin" VUndefined;
     Assign "miterLimit" VUndefined;
     Clip; Stroke; Restore]
  ∧ Clip ∉ trace (run (stroke quiet ab_heap (One 1%positive))).
Proof.
  split.
  - destruct (stroke_clip_order quiet {[ 1%positive :=
            {[ "paint" := VString "red"; "width" := num 2 1;
               "clip" := VBool true ]} ]} (Many [1%positive])) as [H _].
    destruct H as (_ & rest & Htr & Hret); [vm_compute; reflexivity|].
    rewrite (Hret eq_refl), app_nil_r in Htr. rewrite Htr.
    vm_compute. reflexivity.
  - destruct (stroke_clip_order quiet ab_heap (One 1%positive)) as [_ H].
    apply H. vm_compute. reflexivity.
Defined.

(** Every field of [assigned] is assigned its looked-up value by a
    non-empty dispatch that returns. *)
Lemma assigned_in_plan h p styles field prop :
  flat styles ≠ [] → (field, prop) ∈ assigned p →
  Assign field (lookup h styles prop) ∈ plan h p styles.
Proof.
  intros Hne Hin. rewrite (plan_nonempty _ _ _ Hne).
  destruct p; simpl in Hin |- *;
    repeat (apply elem_of_cons in Hin as [Hin|Hin];
            [injection Hin as -> ->; set_solver|]);
    by apply elem_of_nil in Hin.
Qed.

(** C8. In a non-empty dispatch, for each context field that [fill] or
    [stroke] sets: when no style of the resolved list has the property it is
    looked up from, the lookup is [undefined], and a dispatch that returns
    has assigned that [undefined] to the field. *)
Theorem undefined_assigned (throws : list call → call → bool) (h : heap)
    (p : primitive) (styles : styles_arg) (field prop : string) :
  flat styles ≠ [] →
  (field, prop) ∈ assigned p →
  (∀ s, s ∈ resolve_styles h (flat styles) → has_prop h s prop = false) →
  use h (resolve_styles h (flat styles)) prop = VUndefined
  ∧ (out (run (dispatch throws h p styles)) = Returned tt →
     Assign field VUndefined ∈ trace (run (dispatch throws h p styles))).
Proof.
  intros Hne Hin Hnone.
  pose proof (use_undefined _ _ _ Hnone) as Hu.
  split; [done|]. intros Hout.
  destruct (trace_in_plan throws h p styles) as (rest & Htr & Hret).
  rewrite (Hret Hout), app_nil_r in Htr. rewrite Htr.
  rewrite <- Hu, <- (lookup_nonempty _ _ Hne).
  by apply assigned_in_plan.
Qed.

Lemma undefined_assigned_witness :
  use ab_heap (resolve_styles ab_heap (flat (One 1%positive))) "cap" = VUndefined
  ∧ Assign "lineCap" VUndefined
      ∈ trace (run (dispatch quiet ab_heap DoStroke (One 1%positive))).
Proof.
  destruct (undefined_assigned quiet ab_heap DoStroke (One 1%positive)
              "lineCap" "cap") as [H1 H2].
  - discriminate.
  - apply (bool_decide_unpack _). vm_compute. reflexivity.
  - intros s Hs. vm_compute in Hs.
    apply elem_of_cons in Hs as [->|Hs]; [vm_compute; reflexivity|].
    apply elem_of_cons in Hs as [->|Hs]; [vm_compute; reflexivity|].
    by apply elem_of_nil in Hs.
  - split; [exact H1|]. apply H2. vm_compute. reflexivity.
Defined.

(** * Facts about the [Graphics.prototype] methods *)

Import Hooks.

Lemma constructions_app t1 t2 :
  constructions (t1 ++ t2) = (constructions t1 + constructions t2)%nat.
Proof. unfold constructions. by rewrite filter_app, length_app. Qed.

Lemma rendered_on_app t1 t2 :
  rendered_on (t1 ++ t2) = rendered_on t1 ++ rendered_on t2.
Proof. unfold rendered_on. apply omap_app. Qed.

Ltac step_calls throws :=
  unfold generateCanvasTexture, new_CanvasRenderer, mbind, M_bind, mret, M_ret,
    bind, invoke, ret, get, put, throw;
  simpl;
  repeat (match goal with
          | |- context [throws ?t ?c] => destruct (throws t c) eqn:?; simpl
          end).

(** Once [canvasRenderer] holds a renderer, a call leaves the variable as it
    is, constructs nothing, and renders on that renderer only, whether or
    not one of its calls throws. *)
Lemma generate_keeps throws this sm res σ t r0 :
  canvasRenderer σ = Some r0 →
  final (generateCanvasTexture throws this sm res σ t) = σ
  ∧ ∃ added,
      trace (generateCanvasTexture throws this sm res σ t) = t ++ added
      ∧ constructions added = 0%nat
      ∧ (∀ r, r ∈ rendered_on added → r = r0).
Proof.
  intros Hσ. step_calls throws; rewrite ?Hσ; simpl;
    repeat (match goal with
            | |- context [throws ?t ?c] => destruct (throws t c) eqn:?; simpl
            end);
    (split; [done|]); rewrite <- ?app_assoc; simpl;
    (eexists; split; [reflexivity|]); (split; [reflexivity|]);
    intros r Hr; simpl in Hr;
    repeat (apply elem_of_cons in Hr as [Hr|Hr]; [done|]);
    by apply elem_of_nil in Hr.
Qed.

Lemma generate_each_cons throws this objs sm res σ t :
  generate_each throws (this :: objs) sm res σ t
  = generate_each throws objs sm res
      (final (generateCanvasTexture throws this sm res σ t))
      (trace (generateCanvasTexture throws this sm res σ t)).
Proof.
  cbn [generate_each]. unfold mbind, M_bind, bind, attempt.
  by destruct (generateCanvasTexture throws this sm res σ t).
Qed.

Lemma generate_each_keeps throws sm res r0 objs : ∀ σ t,
  canvasRenderer σ = Some r0 →
  final (generate_each throws objs sm res σ t) = σ
  ∧ ∃ added,
      trace (generate_each throws objs sm res σ t) = t ++ added
      ∧ constructions added = 0%nat
      ∧ (∀ r, r ∈ rendered_on added → r = r0).
Proof.
  induction objs as [|this objs IH]; intros σ t Hσ.
  - split; [done|]. exists []. simpl. rewrite app_nil_r.
    split_and!; [done..|]. intros r Hr. by apply elem_of_nil in Hr.
  - destruct (generate_keeps throws this sm res σ t r0 Hσ)
      as (Hfin & a1 & Htr & Hc1 & Hr1).
    rewrite generate_each_cons, Hfin, Htr.
    destruct (IH σ (t ++ a1) Hσ) as (Hfin2 & a2 & Htr2 & Hc2 & Hr2).
    split; [done|]. exists (a1 ++ a2).
    split_and!.
    + by rewrite Htr2, app_assoc.
    + rewrite constructions_app. lia.
    + intros r Hr. rewrite rendered_on_app in Hr.
      apply elem_of_app in Hr as [Hr|Hr]; eauto.
Qed.

(** The first call, when it returns: one renderer constructed, assigned to
    [canvasRenderer], and rendered on. *)
Lemma generate_first throws this sm res σ :
  canvasRenderer σ = None →
  out (generateCanvasTexture throws this sm res σ []) = Returned tt →
  canvasRenderer (final (generateCanvasTexture throws this sm res σ []))
  = Some (next_ref σ)
  ∧ constructions (trace (generateCanvasTexture throws this sm res σ [])) = 1%nat
  ∧ rendered_on (trace (generateCanvasTexture throws this sm res σ []))
    = [next_ref σ].
Proof.
  intros Hσ. step_calls throws; rewrite ?Hσ; simpl;
    repeat (match goal with
            | |- context [throws ?t ?c] => destruct (throws t c) eqn:?; simpl
            end);
    intros Hout; try discriminate.
  split_and!; reflexivity.
Qed.

Lemma generate_quiet throws this sm res σ t r0 :
  (∀ past e, throws past e = false) →
  canvasRenderer σ = Some r0 →
  rendered_on (trace (generateCanvasTexture throws this sm res σ t))
  = rendered_on t ++ [r0].
Proof.
  intros Hq Hσ.
  unfold generateCanvasTexture, new_CanvasRenderer, mbind, M_bind, mret, M_ret,
    bind, invoke, ret, get, put, throw.
  simpl. rewrite ?Hq, ?Hσ. simpl. rewrite ?Hq, ?Hσ. simpl. rewrite ?Hq. simpl.
  rewrite !rendered_on_app. simpl. by rewrite !app_nil_r.
Qed.

Lemma generate_each_quiet throws sm res r0 objs : ∀ σ t,
  (∀ past e, throws past e = false) →
  canvasRenderer σ = Some r0 →
  rendered_on (trace (generate_each throws objs sm res σ t))
  = rendered_on t ++ replicate (length objs) r0.
Proof.
  induction objs as [|this objs IH]; intros σ t Hq Hσ.
  - simpl. by rewrite app_nil_r.
  - destruct (generate_keeps throws this sm res σ t r0 Hσ) as (Hfin & _).
    rewrite generate_each_cons, Hfin, (IH _ _ Hq Hσ).
    rewrite (generate_quiet _ _ _ _ _ _ r0 Hq Hσ).
    by rewrite <- app_assoc.
Qed.

Lemma is_true_spec v : is_true v = true ↔ v = VBool true.
Proof. destruct v as [| |[]| | | | |]; simpl; split; congruence. Qed.

(** C10. [_renderCanvas] on an object whose [isMask] is exactly [true]
    returns without any call; on every other object it calls [finishPoly()]
    and, unless that throws, the graphics plugin's [render] next, and
    nothing else. *)
Theorem renderCanvas_mask (throws : list event → event → bool) (h : heap)
    (this renderer : loc) (σ : globals) (t : list event) :
  (get_prop h this "isMask" = VBool true →
     _renderCanvas throws h this renderer σ t = Result σ t (Returned tt))
  ∧ (get_prop h this "isMask" ≠ VBool true →
     final (_renderCanvas throws h this renderer σ t) = σ
     ∧ trace (_renderCanvas throws h this renderer σ t)
       = t ++ FinishPoly this
              :: (if throws t (FinishPoly this) then []
                  else [PluginRender renderer this])).
Proof.
  unfold _renderCanvas. split; intros Hm.
  - by rewrite Hm.
  - destruct (is_true (get_prop h this "isMask")) eqn:His.
    { by apply is_true_spec in His. }
    unfold mbind, M_bind, bind, invoke. simpl.
    destruct (throws t (FinishPoly this)); simpl; [done|].
    by rewrite <- app_assoc.
Qed.

(** A mask, and an object whose [isMask] is the number [1]. *)
Lemma renderCanvas_mask_witness :
  trace (_renderCanvas Hooks.quiet {[ 7%positive := {[ "isMask" := VBool true ]} ]}
           7%positive 9%positive initial []) = []
  ∧ trace (_renderCanvas Hooks.quiet {[ 7%positive := {[ "isMask" := num 1 1 ]} ]}
             7%positive 9%positive initial [])
    = [FinishPoly 7%positive; PluginRender 9%positive 7%positive].
Proof.
  split.
  - destruct (renderCanvas_mask Hooks.quiet
                {[ 7%positive := {[ "isMask" := VBool true ]} ]}
                7%positive 9%positive initial []) as [H _].
    rewrite H; [reflexivity | vm_compute; reflexivity].
  - destruct (renderCanvas_mask Hooks.quiet
                {[ 7%positive := {[ "isMask" := num 1 1 ]} ]}
                7%positive 9%positive initial []) as [_ H].
    destruct H as [_ H]; [vm_compute; discriminate|].
    rewrite H. reflexivity.
Defined.

(** * The scenarios of the specification *)

(** [fill(A)] with [A = {paint: "blue", use: [B]}] and
    [B = {paint: "red", alpha: 0.5}]: [A]'s paint wins, [B]'s alpha is
    inherited. *)
Example fill_inherits :
  trace (run (fill Paint.quiet ab_heap (One 1%positive)))
  = [Save; Assign "globalAlpha" (num 1 2);
     Assign "globalCompositeOperation" VUndefined;
     Assign "fillStyle" (VString "blue"); Fill; Restore].
Proof. vm_compute. reflexivity. Qed.

(** A style reached twice, directly and through a [use] list, is returned
    at its first place only. *)
Example resolve_shared :
  resolve_styles ab_heap [2%positive; 1%positive] = [2%positive; 1%positive].
Proof. vm_compute. reflexivity. Qed.

(** A renderer whose constructor throws on the first call is constructed
    again by the next call. *)
Example constructor_retry :
  constructions
    (trace (generate_each
              (λ past e, match past, e with
                         | [_; _], NewCanvasRenderer _ => true
                         | _, _ => false
                         end)
              [5%positive; 5%positive] VUndefined VUndefined initial [])) = 2%nat.
Proof. vm_compute. reflexivity. Qed.

(** * More about [resolve] *)

Lemma reach_mono h roots1 roots2 x :
  (∀ y, y ∈ roots1 → reach h roots2 y) → reach h roots1 x → reach h roots2 x.
Proof.
  intros Hroots Hx. induction Hx as [s Hs|s u x _ IH Hu Hxu].
  - by apply Hroots.
  - by eapply reach_use.
Qed.

(** Every style [resolve] returns is reached from its input. *)
Lemma resolve_sound f h : ∀ styles seen res seen',
  resolve f h styles seen = Some (res, seen') →
  ∀ x, x ∈ res → reach h styles x.
Proof.
  induction f as [|f IHf]; [done|].
  induction styles as [|s rest IH]; intros seen res seen' H x Hx.
  - rewrite resolve_nil in H. injection H as <- <-. by apply elem_of_nil in Hx.
  - assert (∀ y, reach h rest y → reach h (s :: rest) y) as Hrest.
    { intros y. apply reach_mono. intros z Hz. apply reach_root. by right. }
    destruct (decide (s ∈ seen)) as [Hs|Hs].
    { rewrite resolve_cons_seen in H by done. eauto. }
    destruct (use_of h s) as [u|] eqn:Hu.
    + rewrite (resolve_cons_use _ _ _ _ _ u) in H by done.
      destruct (resolve f h u ({[s]} ∪ seen)) as [[sub seen2]|] eqn:Hsub;
        [|discriminate].
      destruct (resolve (S f) h rest seen2) as [[r sn]|] eqn:Hr; [|discriminate].
      unfold onto in H; simpl in H. injection H as <- <-.
      apply elem_of_cons in Hx as [->|Hx]; [apply reach_root; by left|].
      apply elem_of_app in Hx as [Hx|Hx]; [|eauto].
      apply (reach_mono h u); [|by eapply IHf].
      intros y Hy. apply (reach_use h _ s u); [|done..].
      apply reach_root. by left.
    + rewrite resolve_cons_leaf in H by done.
      destruct (resolve (S f) h rest ({[s]} ∪ seen)) as [[r sn]|] eqn:Hr;
        [|discriminate].
      unfold onto in H; simpl in H. injection H as <- <-.
      apply elem_of_cons in Hx as [->|Hx]; [apply reach_root; by left|eauto].
Qed.

(** The output holds the input styles and, with a style, its [use] list. *)
Lemma resolve_styles_roots h styles x :
  x ∈ styles → x ∈ resolve_styles h styles.
Proof.
  intros Hx.
  destruct (resolve_styles_spec h styles _ (Nat.le_refl _)) as [seen' H].
  apply resolve_inv in H as (-> & _ & _ & Hin).
  specialize (Hin x Hx). set_solver.
Qed.

Lemma resolve_styles_closed h styles s u x :
  s ∈ resolve_styles h styles → use_of h s = Some u → x ∈ u →
  x ∈ resolve_styles h styles.
Proof.
  intros Hs Hu Hx.
  apply list_elem_of_split in Hs as (pre & post & Hout).
  destruct (resolve_styles_spec h styles _ (Nat.le_refl _)) as [seen' H].
  destruct (resolve_block _ _ _ _ _ _ H pre s post Hout) as [post' Hpost].
  rewrite Hu in Hpost. simpl in Hpost.
  pose proof (resolve_with_spec h u (∅ ∪ list_to_set (pre ++ [s])) _
                (Nat.le_refl _)) as Hblk.
  destruct (resolve_with h u (∅ ∪ list_to_set (pre ++ [s]))) as [blk sn].
  apply resolve_inv in Hblk as (-> & _ & _ & Hin).
  specialize (Hin x Hx). simpl in Hpost.
  rewrite Hout, Hpost. set_solver.
Qed.

(** X1. [resolve(styles)] returns exactly the styles reachable from
    [styles] through [use] lists. *)
Theorem resolve_reaches (h : heap) (styles : list loc) (x : loc) :
  x ∈ resolve_styles h styles ↔ reach h styles x.
Proof.
  split.
  - intros Hx.
    destruct (resolve_styles_spec h styles _ (Nat.le_refl _)) as [seen' H].
    by eapply resolve_sound.
  - intros Hx. induction Hx as [s Hs|s u x _ IH Hu Hxu].
    + by apply resolve_styles_roots.
    + by eapply resolve_styles_closed.
Qed.

(** Styles already seen at the front of the input are passed over. *)
Lemma resolve_skip_seen f h l1 l2 seen :
  (∀ x, x ∈ l1 → x ∈ seen) →
  resolve (S f) h (l1 ++ l2) seen = resolve (S f) h l2 seen.
Proof.
  induction l1 as [|x l1 IH]; intros Hall; [done|].
  rewrite <- app_comm_cons, resolve_cons_seen by set_solver.
  apply IH. set_solver.
Qed.

(** A list laid out as [resolve] lays out its output is returned as it
    stands. *)
Lemma resolve_fixed h : ∀ n l seen,
  (length l ≤ n)%nat → NoDup l → (∀ x, x ∈ l → x ∉ seen) →
  (∀ pre s post, l = pre ++ s :: post →
     ∃ post', post = (resolve_with h (default [] (use_of h s))
                        (seen ∪ list_to_set (pre ++ [s]))).1 ++ post') →
  resolve (resolve_fuel h) h l seen = Some (l, seen ∪ list_to_set l).
Proof.
  unfold resolve_fuel.
  induction n as [|n IH]; intros l seen Hlen Hnd Hfresh Hlay.
  { destruct l; [|simpl in Hlen; lia]. rewrite resolve_nil.
    f_equal. f_equal. set_solver. }
  destruct l as [|s post].
  { rewrite resolve_nil. f_equal. f_equal. set_solver. }
  apply NoDup_cons in Hnd as [Hs Hnd].
  assert (s ∉ seen) as Hseen by (apply Hfresh; by left).
  destruct (Hlay [] s post eq_refl) as [post' Hpost].
  assert (seen ∪ list_to_set ([] ++ [s]) = {[s]} ∪ seen) as Hset by set_solver.
  rewrite Hset in Hpost. clear Hset.
  destruct (use_of h s) as [u|] eqn:Hu; simpl in Hpost.
  - rewrite (resolve_cons_use _ _ _ _ _ u) by done.
    destruct (resolve_enough_fuel (size (dom h)) h u ({[s]} ∪ seen))
      as [[sub seen2] Hsub].
    { apply use_of_in_dom in Hu.
      assert (dom h ∖ ({[s]} ∪ seen) ⊂ dom h) as Hlt by set_solver.
      by apply subset_size in Hlt. }
    rewrite Hsub. rewrite (resolve_with_of _ _ _ _ _ Hsub) in Hpost.
    simpl in Hpost. subst post.
    apply resolve_inv in Hsub as (-> & _ & _ & _).
    rewrite resolve_skip_seen by set_solver.
    apply NoDup_app in Hnd as (_ & Hdis & Hnd').
    rewrite (IH post' (({[s]} ∪ seen) ∪ list_to_set sub)).
    + unfold onto; simpl. f_equal. f_equal. set_solver.
    + simpl in Hlen. rewrite length_app in Hlen. lia.
    + done.
    + intros x Hx.
      assert (x ∉ seen) by (apply Hfresh; set_solver).
      assert (x ≠ s) by (intros ->; apply Hs; set_solver).
      assert (x ∉ sub) by (intros Hin; by apply (Hdis x Hin)).
      set_solver.
    + intros pre s' post'' Hsplit.
      destruct (Hlay (s :: sub ++ pre) s' post'') as [post3 ->].
      { simpl. rewrite Hsplit. by rewrite <- app_assoc. }
      exists post3. f_equal. f_equal. f_equal. set_solver.
  - rewrite resolve_cons_leaf by done.
    unfold resolve_with, resolve_fuel in Hpost. simpl in Hpost. subst post.
    rewrite (IH post' ({[s]} ∪ seen)).
    + unfold onto; simpl. f_equal. f_equal. set_solver.
    + simpl in Hlen. lia.
    + done.
    + intros x Hx.
      assert (x ∉ seen) by (apply Hfresh; set_solver).
      assert (x ≠ s) by (intros ->; done).
      set_solver.
    + intros pre s' post'' Hsplit.
      destruct (Hlay (s :: pre) s' post'') as [post3 ->].
      { simpl. by rewrite Hsplit. }
      exists post3. f_equal. f_equal. f_equal. set_solver.
Qed.

Lemma resolve_styles_fixed h styles :
  resolve_styles h (resolve_styles h styles) = resolve_styles h styles.
Proof.
  destruct (resolve_styles_spec h styles _ (Nat.le_refl _)) as [seen' H].
  pose proof (resolve_fixed h _ (resolve_styles h styles) ∅ (Nat.le_refl _)
                (resolve_styles_NoDup h styles)) as Hfix.
  unfold resolve_styles at 1. unfold resolve_with. rewrite Hfix; [done| |].
  - intros x _. set_solver.
  - intros pre s post Hsplit. by eapply resolve_block.
Qed.

(** X2. [resolve] applied to a list it returned gives that list back. *)
Theorem resolve_idempotent (h : heap) (styles : list loc) :
  resolve_styles h (resolve_styles h styles) = resolve_styles h styles.
Proof. apply resolve_styles_fixed. Qed.

Lemma resolve_app_fuel f h l1 : ∀ l2 seen,
  resolve (S f) h (l1 ++ l2) seen
  = match resolve (S f) h l1 seen with
    | Some (r1, seen1) => onto r1 <$> resolve (S f) h l2 seen1
    | None => None
    end.
Proof.
  induction l1 as [|s l1 IH]; intros l2 seen.
  - rewrite resolve_nil. simpl app.
    destruct (resolve (S f) h l2 seen) as [[r sn]|]; done.
  - rewrite <- app_comm_cons.
    destruct (decide (s ∈ seen)) as [Hs|Hs].
    { rewrite !resolve_cons_seen by done. apply IH. }
    destruct (use_of h s) as [u|] eqn:Hu.
    + rewrite !(resolve_cons_use _ _ _ _ _ u) by done.
      destruct (resolve f h u ({[s]} ∪ seen)) as [[sub seen2]|]; [|done].
      rewrite IH.
      destruct (resolve (S f) h l1 seen2) as [[r1 seen1]|]; [|done].
      cbn [fmap option_fmap option_map onto fst snd].
      destruct (resolve (S f) h l2 seen1) as [[r2 sn]|]; [|done].
      unfold onto; simpl. by rewrite <- app_assoc.
    + rewrite !resolve_cons_leaf by done. rewrite IH.
      destruct (resolve (S f) h l1 ({[s]} ∪ seen)) as [[r1 seen1]|]; [|done].
      cbn [fmap option_fmap option_map onto fst snd].
      destruct (resolve (S f) h l2 seen1) as [[r2 sn]|]; [|done].
      unfold onto; simpl. done.
Qed.

(** X3. Resolving a list in two parts: the second part is resolved on what
    the first part has seen, and the two outputs are joined. *)
Theorem resolve_app (h : heap) (l1 l2 : list loc) (seen : gset loc) :
  resolve_with h (l1 ++ l2) seen
  = ((resolve_with h l1 seen).1
       ++ (resolve_with h l2 (resolve_with h l1 seen).2).1,
     (resolve_with h l2 (resolve_with h l1 seen).2).2).
Proof.
  pose proof (resolve_with_spec h (l1 ++ l2) seen _ (Nat.le_refl _)) as H.
  pose proof (resolve_with_spec h l1 seen _ (Nat.le_refl _)) as H1.
  destruct (resolve_with h l1 seen) as [r1 seen1]. simpl.
  pose proof (resolve_with_spec h l2 seen1 _ (Nat.le_refl _)) as H2.
  destruct (resolve_with h l2 seen1) as [r2 seen2]. simpl.
  unfold resolve_fuel in *. rewrite resolve_app_fuel, H1, H2 in H.
  simpl in H. by injection H.
Qed.

(** [resolve] reads nothing of a store but the [use] lists of the styles it
    returns. *)
Lemma resolve_ext f h h' : ∀ styles seen res seen',
  resolve f h styles seen = Some (res, seen') →
  (∀ s, s ∈ res → use_of h' s = use_of h s) →
  resolve f h' styles seen = Some (res, seen').
Proof.
  induction f as [|f IHf]; [done|].
  induction styles as [|s rest IH]; intros seen res seen' H Hsame.
  - by rewrite resolve_nil in *.
  - destruct (decide (s ∈ seen)) as [Hs|Hs].
    { rewrite resolve_cons_seen in H by done.
      rewrite resolve_cons_seen by done. by apply IH. }
    destruct (use_of h s) as [u|] eqn:Hu.
    + rewrite (resolve_cons_use _ _ _ _ _ u) in H by done.
      destruct (resolve f h u ({[s]} ∪ seen)) as [[sub seen2]|] eqn:Hsub;
        [|discriminate].
      destruct (resolve (S f) h rest seen2) as [[r sn]|] eqn:Hr; [|discriminate].
      unfold onto in H; simpl in H. injection H as <- <-.
      rewrite (resolve_cons_use _ h' _ _ _ u); [|done|].
      2: { rewrite Hsame; [done|]. by left. }
      rewrite (IHf _ _ _ _ Hsub) by (intros; apply Hsame; set_solver).
      rewrite (IH _ _ _ Hr) by (intros; apply Hsame; set_solver).
      done.
    + rewrite resolve_cons_leaf in H by done.
      destruct (resolve (S f) h rest ({[s]} ∪ seen)) as [[r sn]|] eqn:Hr;
        [|discriminate].
      unfold onto in H; simpl in H. injection H as <- <-.
      rewrite resolve_cons_leaf; [|done|].
      2: { rewrite Hsame; [done|]. by left. }
      rewrite (IH _ _ _ Hr) by (intros; apply Hsame; set_solver).
      done.
Qed.

Lemma resolve_styles_ext h h' styles :
  (∀ s, s ∈ resolve_styles h styles → use_of h' s = use_of h s) →
  resolve_styles h' styles = resolve_styles h styles.
Proof.
  intros Hsame.
  destruct (resolve_styles_spec h styles _ (Nat.le_refl _)) as [seen' H].
  apply (resolve_ext _ _ h') in H; [|done].
  unfold resolve_styles at 1. by rewrite (resolve_with_of _ _ _ _ _ H).
Qed.

(** X4. The output of [resolve] depends on the store only through the
    [use] lists of the styles it returns: a store that agrees on those gives
    the same output. *)
Theorem resolve_reads_use_only (h h' : heap) (styles : list loc) :
  (∀ s, s ∈ resolve_styles h styles → use_of h' s = use_of h s) →
  resolve_styles h' styles = resolve_styles h styles.
Proof. apply resolve_styles_ext. Qed.

(** [{paint: "red", use: [B]}] in place of [A]: another paint, the same
    [use] list. *)
Lemma resolve_reads_use_only_witness :
  resolve_styles
    (<[1%positive := {[ "paint" := VString "red"; "use" := VArray [2%positive] ]}]>
       ab_heap) [1%positive]
  = resolve_styles ab_heap [1%positive].
Proof.
  apply resolve_reads_use_only.
  intros s Hs. vm_compute in Hs.
  apply elem_of_cons in Hs as [->|Hs]; [vm_compute; reflexivity|].
  apply elem_of_cons in Hs as [->|Hs]; [vm_compute; reflexivity|].
  by apply elem_of_nil in Hs.
Defined.

(** X5. The contract of the [seen] argument: [resolve(styles, seen)] returns
    no style that [seen] held on entry, and on return [seen] holds what it
    held plus exactly the styles returned, every style of [styles] among
    what it holds. *)
Theorem resolve_seen_contract (h : heap) (styles : list loc) (seen : gset loc) :
  (resolve_with h styles seen).2
  = seen ∪ list_to_set (resolve_with h styles seen).1
  ∧ (∀ x, x ∈ (resolve_with h styles seen).1 → x ∉ seen)
  ∧ (∀ x, x ∈ styles → x ∈ (resolve_with h styles seen).2).
Proof.
  pose proof (resolve_with_spec h styles seen _ (Nat.le_refl _)) as H.
  destruct (resolve_with h styles seen) as [res seen'].
  apply resolve_inv in H as (? & _ & ? & ?). done.
Qed.

(** * More about [Paint] *)

Lemma resolve_styles_head h a rest :
  ∃ tl, resolve_styles h (a :: rest) = a :: tl.
Proof.
  destruct (resolve_styles_spec h (a :: rest) _ (Nat.le_refl _)) as [seen' H].
  unfold resolve_fuel in H.
  destruct (use_of h a) as [u|] eqn:Hu.
  - rewrite (resolve_cons_use _ _ _ _ _ u) in H by set_solver.
    destruct (resolve (size (dom h)) h u ({[a]} ∪ ∅)) as [[sub seen2]|];
      [|discriminate].
    destruct (resolve (S (size (dom h))) h rest seen2) as [[r sn]|];
      [|discriminate].
    unfold onto in H; simpl in H. injection H as H _. eauto.
  - rewrite resolve_cons_leaf in H by set_solver.
    destruct (resolve (S (size (dom h))) h rest ({[a]} ∪ ∅)) as [[r sn]|];
      [|discriminate].
    unfold onto in H; simpl in H. injection H as H _. eauto.
Qed.

(** X6. A property that the first style of the input has itself is looked
    up from that style, whatever its [use] list and the styles after it
    hold. *)
Theorem own_property_wins (h : heap) (styles : styles_arg) (a : loc)
    (rest : list loc) (prop : string) :
  flat styles = a :: rest →
  has_prop h a prop = true →
  lookup h styles prop = get_prop h a prop.
Proof.
  intros Hflat Ha.
  rewrite lookup_nonempty by (by rewrite Hflat). rewrite Hflat.
  destruct (resolve_styles_head h a rest) as [tl ->].
  simpl. by rewrite Ha.
Qed.

Lemma own_property_wins_witness :
  lookup ab_heap (One 1%positive) "paint" = VString "blue".
Proof.
  apply (own_property_wins ab_heap (One 1%positive) 1%positive [] "paint").
  - reflexivity.
  - vm_compute. reflexivity.
Defined.

Lemma use_agree (h h' : heap) l prop :
  (∀ s, s ∈ l → has_prop h' s prop = has_prop h s prop
                ∧ get_prop h' s prop = get_prop h s prop) →
  use h' l prop = use h l prop.
Proof.
  induction l as [|s l IH]; intros Hl; [done|].
  destruct (Hl s) as [Hhas Hget]; [by left|].
  simpl. rewrite Hhas, Hget, IH; [done|].
  intros x Hx. apply Hl. by right.
Qed.

Lemma read_name prop : bool_decide (prop ∈ read_names) = true → prop ∈ read_names.
Proof. apply bool_decide_eq_true_1. Qed.

Lemma plan_agree h h' p styles :
  (∀ prop, prop ∈ read_names → lookup h' styles prop = lookup h styles prop) →
  plan h' p styles = plan h p styles.
Proof.
  intros Hlk. unfold plan, body.
  destruct (length (flat styles) =? 0)%nat; destruct p;
    by rewrite !Hlk by (by apply read_name).
Qed.

(** X7. A dispatch reads the store only through [prop in s] and [s[prop]],
    for the styles [s] of its resolved list and the names of [read_names]:
    on two stores for which these agree, [fill] and [stroke] make the same
    calls with the same values and end the same way. *)
Theorem dispatch_reads_resolved (throws : list call → call → bool)
    (h h' : heap) (p : primitive) (styles : styles_arg)
    (σ : unit) (t : list call) :
  (∀ s prop, s ∈ resolve_styles h (flat styles) → prop ∈ read_names →
     has_prop h' s prop = has_prop h s prop
     ∧ get_prop h' s prop = get_prop h s prop) →
  dispatch throws h' p styles σ t = dispatch throws h p styles σ t.
Proof.
  intros Hagree. rewrite !dispatch_plan. f_equal.
  apply plan_agree. intros prop Hprop. unfold lookup.
  destruct (length (flat styles) =? 0)%nat; [done|].
  rewrite (resolve_styles_ext h h').
  - apply use_agree. intros s Hs. by apply Hagree.
  - intros s Hs. unfold use_of.
    destruct (Hagree s "use" Hs) as [_ ->]; [by apply read_name|done].
Qed.

(** [fill(A')] for a style [A'] without a [use] list, on two stores that
    differ in another style. *)
Lemma dispatch_reads_resolved_witness :
  dispatch Paint.quiet (<[2%positive := {[ "paint" := VString "green" ]}]> plain_heap)
    DoFill (One 1%positive) tt []
  = dispatch Paint.quiet plain_heap DoFill (One 1%positive) tt [].
Proof.
  apply dispatch_reads_resolved. intros s prop Hs _.
  vm_compute in Hs.
  apply elem_of_cons in Hs as [->|Hs]; [|by apply elem_of_nil in Hs].
  by rewrite has_prop_other, get_prop_other.
Defined.

(** X8. The calls of [fill] on a non-empty input are an initial part of:
    [save()], the assignments of [globalAlpha], [globalCompositeOperation]
    and [fillStyle] from the lookup, [fill()], [restore()]; all of them when
    the dispatch returns. *)
Theorem fill_order (throws : list call → call → bool) (h : heap)
    (styles : styles_arg) :
  flat styles ≠ [] →
  ∃ rest,
    trace (run (fill throws h styles)) ++ rest
    = [Save;
       Assign "globalAlpha" (lookup h styles "alpha");
       Assign "globalCompositeOperation" (lookup h styles "blendMode");
       Assign "fillStyle" (lookup h styles "paint");
       Fill; Restore]
    ∧ (out (run (fill throws h styles)) = Returned tt → rest = []).
Proof.
  intros Hne.
  destruct (trace_in_plan throws h DoFill styles) as (rest & Htr & Hret).
  exists rest. split; [|done].
  change (dispatch throws h DoFill styles) with (fill throws h styles) in Htr.
  by rewrite Htr, (plan_nonempty _ _ _ Hne).
Qed.

(** [fill([{alpha: 0.5}])]. *)
Lemma fill_order_witness :
  trace (run (fill Paint.quiet plain_heap (Many [2%positive])))
  = [Save; Assign "globalAlpha" (num 1 2);
     Assign "globalCompositeOperation" VUndefined;
     Assign "fillStyle" VUndefined; Fill; Restore].
Proof.
  destruct (fill_order Paint.quiet plain_heap (Many [2%positive]))
    as (rest & Htr & Hret); [discriminate|].
  rewrite (Hret eq_refl), app_nil_r in Htr. rewrite Htr.
  vm_compute. reflexivity.
Defined.

(** A block of calls ends [Thrown] only on a call that threw. *)
Lemma invoke_all_thrown {Σ E : Type} (throws : list E → E → bool) (cs : list E) :
  ∀ (σ : Σ) (t : list E),
    out (invoke_all throws cs σ t) = Thrown →
    ∃ pre c, trace (invoke_all throws cs σ t) = t ++ pre ++ [c]
             ∧ throws (t ++ pre) c = true.
Proof.
  induction cs as [|c cs IH]; intros σ t; [done|].
  simpl. unfold bind, invoke. simpl.
  destruct (throws t c) eqn:Hc; simpl.
  - intros _. exists [], c. by rewrite app_nil_r.
  - intros Hout. destruct (IH σ (t ++ [c]) Hout) as (pre & c' & Htr & Hthrow).
    exists (c :: pre), c'. rewrite Htr, <- !app_assoc in *. done.
Qed.

(** X9. On an input that is a style or an array of styles, each resolved
    style having for [use] an array of styles or a falsy value, as the type
    [IStyle<S>] declares, [fill] and [stroke] neither catch nor raise: a
    dispatch ends with an exception exactly when the last call it made
    threw, and it makes no call after one that threw. *)
Theorem dispatch_throws_iff (throws : list call → call → bool) (h : heap)
    (p : primitive) (styles : styles_arg) :
  (∀ s, s ∈ resolve_styles h (flat styles) → well_typed_use h s) →
  (out (run (dispatch throws h p styles)) = Thrown
   ↔ ∃ pre c, trace (run (dispatch throws h p styles)) = pre ++ [c]
              ∧ throws pre c = true)
  ∧ (∀ pre c post,
       trace (run (dispatch throws h p styles)) = pre ++ c :: post →
       throws pre c = true → post = []).
Proof.
  intros _.
  destruct (run_dispatch throws h p styles)
    as (made & rest & Hplan & Htr & Hret & Hmade & Hlast).
  split; [split|].
  - unfold run. rewrite dispatch_plan. intros Hout.
    destruct (invoke_all_thrown throws _ _ _ Hout) as (pre & c & H1 & H2).
    by exists pre, c.
  - intros (pre & c & Hsplit & Hthrow).
    rewrite Htr in Hsplit. by destruct (Hlast pre c [] Hsplit Hthrow).
  - intros pre c post Hsplit Hthrow.
    rewrite Htr in Hsplit. by destruct (Hlast pre c post Hsplit Hthrow).
Qed.

Lemma dispatch_throws_iff_witness :
  out (run (dispatch broken ab_heap DoStroke (One 1%positive))) = Thrown.
Proof.
  destruct (dispatch_throws_iff broken ab_heap DoStroke (One 1%positive))
    as [[_ H] _].
  - intros s Hs. vm_compute in Hs.
    apply elem_of_cons in Hs as [->|Hs]; [intros _; by exists [2%positive]|].
    apply elem_of_cons in Hs as [->|Hs]; [intros Ht; vm_compute in Ht; discriminate|].
    by apply elem_of_nil in Hs.
  - apply H.
    exists [Save; Assign "globalAlpha" (num 1 2);
            Assign "globalCompositeOperation" VUndefined;
            Assign "strokeStyle" (VString "blue");
            Assign "lineWidth" VUndefined; Assign "lineCap" VUndefined;
            Assign "lineJoin" VUndefined; Assign "miterLimit" VUndefined], Stroke.
    split; [vm_compute; reflexivity | reflexivity].
Defined.

Lemma saves_app t1 t2 : saves (t1 ++ t2) = (saves t1 + saves t2)%nat.
Proof. unfold saves. by rewrite filter_app, length_app. Qed.

Lemma restores_app t1 t2 : restores (t1 ++ t2) = (restores t1 + restores t2)%nat.
Proof. unfold restores. by rewrite filter_app, length_app. Qed.

Lemma saves_none t : Save ∉ t → saves t = 0%nat.
Proof.
  induction t as [|c t IH]; intros H; [done|].
  apply not_elem_of_cons in H as [Hc Ht].
  change (c :: t) with ([c] ++ t). rewrite saves_app, IH by done.
  by destruct c.
Qed.

Lemma restores_none t : Restore ∉ t → restores t = 0%nat.
Proof.
  induction t as [|c t IH]; intros H; [done|].
  apply not_elem_of_cons in H as [Hc Ht].
  change (c :: t) with ([c] ++ t). rewrite restores_app, IH by done.
  by destruct c.
Qed.

(** In every initial part of a plan there is at most one [save()] and no
    more [restore()] than [save()]; in the whole plan there are as many. *)
Lemma plan_discipline h p styles pre rest :
  plan h p styles = pre ++ rest →
  (restores pre ≤ saves pre)%nat ∧ (saves pre ≤ 1)%nat
  ∧ (rest = [] → restores pre = saves pre).
Proof.
  intros Hplan.
  destruct (decide (flat styles = [])) as [He|Hne].
  - rewrite (plan_empty _ _ _ He) in Hplan.
    destruct (body_no_scope p (λ _, VUndefined)) as [HbS HbR].
    assert (saves (pre ++ rest) = 0%nat) as Hs.
    { rewrite <- Hplan. by apply saves_none. }
    assert (restores (pre ++ rest) = 0%nat) as Hr.
    { rewrite <- Hplan. by apply restores_none. }
    rewrite saves_app in Hs. rewrite restores_app in Hr.
    split_and!; [lia..|]. intros _. lia.
  - rewrite (plan_nonempty _ _ _ Hne) in Hplan.
    destruct (body_no_scope p (lookup h styles)) as [HbS HbR].
    set (tl := ([Assign "globalAlpha" (lookup h styles "alpha");
                 Assign "globalCompositeOperation" (lookup h styles "blendMode")]
                ++ body p (lookup h styles)) ++ [Restore]) in *.
    assert (saves tl = 0%nat) as Hs.
    { subst tl. rewrite !saves_app, (saves_none (body _ _)) by done. done. }
    assert (restores tl = 1%nat) as Hr.
    { subst tl. rewrite !restores_app, (restores_none (body _ _)) by done. done. }
    clearbody tl.
    destruct pre as [|c pre'].
    + split_and!; [done | unfold saves; simpl; lia |].
      intros ->. simpl in Hplan. discriminate.
    + simpl in Hplan. injection Hplan as <- ->.
      rewrite saves_app in Hs. rewrite restores_app in Hr.
      change (Save :: pre') with ([Save] ++ pre').
      rewrite saves_app, restores_app.
      change (saves [Save]) with 1%nat. change (restores [Save]) with 0%nat.
      split_and!; [lia..|].
      intros ->. change (restores []) with 0%nat in Hr. lia.
Qed.

(** X10. On every input and whatever throws: a dispatch calls [save()] at
    most once, at no point has it called [restore()] more often than
    [save()], and when it returns it has called both equally often. *)
Theorem scope_discipline (throws : list call → call → bool) (h : heap)
    (p : primitive) (styles : styles_arg) :
  (saves (trace (run (dispatch throws h p styles))) ≤ 1)%nat
  ∧ (∀ pre post,
       trace (run (dispatch throws h p styles)) = pre ++ post →
       (restores pre ≤ saves pre)%nat)
  ∧ (out (run (dispatch throws h p styles)) = Returned tt →
     restores (trace (run (dispatch throws h p styles)))
     = saves (trace (run (dispatch throws h p styles)))).
Proof.
  destruct (trace_in_plan throws h p styles) as (rest & Htr & Hret).
  split_and!.
  - by destruct (plan_discipline h p styles _ rest (eq_sym Htr)) as (_ & ? & _).
  - intros pre post Hsplit. rewrite Hsplit, <- app_assoc in Htr.
    by destruct (plan_discipline h p styles _ _ (eq_sym Htr)) as (? & _).
  - intros Hout.
    destruct (plan_discipline h p styles _ rest (eq_sym Htr)) as (_ & _ & H).
    by apply H, Hret.
Qed.

Lemma scope_discipline_witness :
  restores (trace (run (dispatch Paint.quiet ab_heap DoFill (One 1%positive)))) = 1%nat
  ∧ (restores [Save; Assign "globalAlpha" (num 1 2)]
     ≤ saves [Save; Assign "globalAlpha" (num 1 2)])%nat.
Proof.
  destruct (scope_discipline Paint.quiet ab_heap DoFill (One 1%positive))
    as (_ & Hpre & Hret).
  split.
  - rewrite (Hret eq_refl). vm_compute. reflexivity.
  - apply (Hpre _ [Assign "globalCompositeOperation" VUndefined;
                   Assign "fillStyle" (VString "blue"); Fill; Restore]).
    vm_compute. reflexivity.
Defined.

Ltac elem_cases H :=
  repeat (apply elem_of_cons in H as [H|H];
          [try discriminate; try (injection H as -> ->)|]);
  try (by apply elem_of_nil in H).

(** X11. [fill] never calls [stroke()] or [clip()] and assigns no field
    but [globalAlpha], [globalCompositeOperation] and [fillStyle]; [stroke]
    never calls [fill()] and never assigns [fillStyle]. *)
Theorem dispatch_own_calls (throws : list call → call → bool) (h : heap)
    (styles : styles_arg) :
  (Stroke ∉ trace (run (fill throws h styles)))
  ∧ (Clip ∉ trace (run (fill throws h styles)))
  ∧ (∀ field v, Assign field v ∈ trace (run (fill throws h styles)) →
       field ∈ ["globalAlpha"; "globalCompositeOperation"; "fillStyle"])
  ∧ (Fill ∉ trace (run (stroke throws h styles)))
  ∧ (∀ v, Assign "fillStyle" v ∉ trace (run (stroke throws h styles))).
Proof.
  split_and!.
  - intros H. apply (trace_subset_plan throws h DoFill) in H.
    unfold plan, body in H.
    destruct (length (flat styles) =? 0)%nat; simpl in H; elem_cases H.
  - intros H. apply (trace_subset_plan throws h DoFill) in H.
    unfold plan, body in H.
    destruct (length (flat styles) =? 0)%nat; simpl in H; elem_cases H.
  - intros field v H. apply (trace_subset_plan throws h DoFill) in H.
    unfold plan, body in H.
    destruct (length (flat styles) =? 0)%nat; simpl in H; elem_cases H;
      set_solver.
  - intros H. apply (trace_subset_plan throws h DoStroke) in H.
    unfold plan, body in H.
    destruct (length (flat styles) =? 0)%nat; destruct (truthy _);
      simpl in H; elem_cases H.
  - intros v H. apply (trace_subset_plan throws h DoStroke) in H.
    unfold plan, body in H.
    destruct (length (flat styles) =? 0)%nat; destruct (truthy _);
      simpl in H; elem_cases H.
Qed.

Lemma dispatch_own_calls_witness :
  "fillStyle" ∈ ["globalAlpha"; "globalCompositeOperation"; "fillStyle"].
Proof.
  destruct (dispatch_own_calls Paint.quiet ab_heap (One 1%positive))
    as (_ & _ & H & _).
  apply (H "fillStyle" (VString "blue")).
  vm_compute. do 3 apply list_elem_of_further. apply list_elem_of_here.
Defined.

Lemma resolve_styles_nil h : resolve_styles h [] = [].
Proof. reflexivity. Qed.

Lemma body_ext p (u u' : string → value) :
  (∀ prop, u' prop = u prop) → body p u' = body p u.
Proof. intros H. unfold body. destruct p; by rewrite !H. Qed.

(** X12. Handing a dispatch the list that [resolve] returns for an input,
    instead of the input, changes nothing: [fill] and [stroke] make the same
    calls with the same values. *)
Theorem dispatch_resolved (throws : list call → call → bool) (h : heap)
    (p : primitive) (styles : styles_arg) (σ : unit) (t : list call) :
  dispatch throws h p (Many (resolve_styles h (flat styles))) σ t
  = dispatch throws h p styles σ t.
Proof.
  rewrite !dispatch_plan. f_equal.
  destruct (flat styles) as [|a rest] eqn:Hflat.
  - rewrite resolve_styles_nil, !plan_empty by done. done.
  - destruct (resolve_styles_head h a rest) as [tl Htl].
    assert (flat (Many (resolve_styles h (a :: rest))) ≠ []) as Hne1.
    { simpl. by rewrite Htl. }
    assert (flat styles ≠ []) as Hne2 by (by rewrite Hflat).
    assert (∀ prop, lookup h (Many (resolve_styles h (a :: rest))) prop
                    = lookup h styles prop) as Hlk.
    { intros prop. rewrite !lookup_nonempty by done.
      simpl flat. by rewrite resolve_styles_fixed, Hflat. }
    rewrite !plan_nonempty by done.
    by rewrite !Hlk, (body_ext p _ _ Hlk).
Qed.

(** * More about [generateCanvasTexture] *)

Ltac split_throws throws :=
  repeat (match goal with
          | |- context [throws ?t ?c] => destruct (throws t c) eqn:?; simpl
          end).

(** A call entered without a renderer either leaves the module state as it
    was and renders nothing, or assigns the renderer it constructed and
    renders on no other. *)
Lemma generate_from_none throws this sm res σ t :
  canvasRenderer σ = None →
  (final (generateCanvasTexture throws this sm res σ t) = σ
   ∧ out (generateCanvasTexture throws this sm res σ t) = Thrown
   ∧ ∃ added,
       trace (generateCanvasTexture throws this sm res σ t) = t ++ added
       ∧ rendered_on added = [])
  ∨ (canvasRenderer (final (generateCanvasTexture throws this sm res σ t))
     = Some (next_ref σ)
     ∧ ∃ added,
         trace (generateCanvasTexture throws this sm res σ t) = t ++ added
         ∧ (∀ r, r ∈ rendered_on added → r = next_ref σ)).
Proof.
  intros Hσ. step_calls throws; rewrite ?Hσ; simpl; split_throws throws;
    rewrite <- ?app_assoc; simpl;
    first
      [ left; split_and!; [reflexivity | reflexivity |];
        eexists; split; reflexivity
      | right; split; [reflexivity|];
        eexists; split; [reflexivity|];
        intros r Hr; simpl in Hr;
        repeat (apply elem_of_cons in Hr as [Hr|Hr]; [done|]);
        by apply elem_of_nil in Hr ].
Qed.

Lemma generate_each_one throws sm res objs : ∀ σ t,
  canvasRenderer σ = None →
  ∃ added r0,
    trace (generate_each throws objs sm res σ t) = t ++ added
    ∧ (∀ r, r ∈ rendered_on added → r = r0).
Proof.
  induction objs as [|this objs IH]; intros σ t Hσ.
  - exists [], 1%positive. simpl. rewrite app_nil_r. split; [done|].
    intros r Hr. by apply elem_of_nil in Hr.
  - rewrite generate_each_cons.
    destruct (generate_from_none throws this sm res σ t Hσ)
      as [(Hfin & _ & a1 & Htr & Hr1)|(Hfin & a1 & Htr & Hr1)].
    + rewrite Hfin, Htr.
      destruct (IH σ (t ++ a1) Hσ) as (a2 & r0 & Htr2 & Hr2).
      exists (a1 ++ a2), r0. split; [by rewrite Htr2, app_assoc|].
      intros r. rewrite rendered_on_app, Hr1. simpl. apply Hr2.
    + rewrite Htr.
      destruct (generate_each_keeps throws sm res (next_ref σ) objs _ (t ++ a1) Hfin)
        as (_ & a2 & Htr2 & _ & Hr2).
      exists (a1 ++ a2), (next_ref σ). split; [by rewrite Htr2, app_assoc|].
      intros r. rewrite rendered_on_app.
      intros [Hr|Hr]%elem_of_app; eauto.
Qed.

(** X13. Over any sequence of [generateCanvasTexture] calls, from any module
    state and whichever calls throw, every [render] is on one and the same
    renderer. *)
Theorem renders_on_one (throws : list event → event → bool) (objs : list loc)
    (sm res : value) (σ0 : globals) :
  ∃ r0, ∀ r,
    r ∈ rendered_on (trace (generate_each throws objs sm res σ0 [])) → r = r0.
Proof.
  destruct (canvasRenderer σ0) as [r0|] eqn:Hσ.
  - destruct (generate_each_keeps throws sm res r0 objs σ0 [] Hσ)
      as (_ & added & Htr & _ & Hr).
    exists r0. intros r. rewrite Htr. apply Hr.
  - destruct (generate_each_one throws sm res objs σ0 [] Hσ)
      as (added & r0 & Htr & Hr).
    exists r0. intros r. rewrite Htr. apply Hr.
Qed.

(** X14. A call of [generateCanvasTexture] that returns has made, in this
    order: [getLocalBounds], [RenderTexture.create] with the scale mode and
    the resolution (1 when the argument is [undefined]), the constructor if
    and only if no renderer existed, [updateLocalTransform], [copyTo],
    [invert], [render] on the shared renderer, [Texture.from] with the scale
    mode, and [setResolution] with the same resolution. *)
Theorem generate_returned (throws : list event → event → bool) (this : loc)
    (sm res : value) (σ : globals) (t : list event) :
  out (generateCanvasTexture throws this sm res σ t) = Returned tt →
  trace (generateCanvasTexture throws this sm res σ t)
  = t ++ [GetLocalBounds this;
          CreateRenderTexture sm
            (match res with VUndefined => VNumber 1 | _ => res end)]
      ++ (if canvasRenderer σ is None then [NewCanvasRenderer (next_ref σ)]
          else [])
      ++ [UpdateLocalTransform this; CopyToTempMatrix this; InvertTempMatrix;
          Render (default (next_ref σ) (canvasRenderer σ)) this;
          TextureFrom sm;
          SetResolution (match res with VUndefined => VNumber 1 | _ => res end)].
Proof.
  destruct (canvasRenderer σ) as [r0|] eqn:Hσ;
    step_calls throws; rewrite ?Hσ; simpl; split_throws throws;
    intros Hout; try discriminate;
    rewrite <- ?app_assoc; reflexivity.
Qed.

Lemma generate_returned_witness :
  trace (generateCanvasTexture Hooks.quiet 5%positive VUndefined VUndefined initial [])
  = [GetLocalBounds 5%positive; CreateRenderTexture VUndefined (VNumber 1);
     NewCanvasRenderer 1%positive;
     UpdateLocalTransform 5%positive; CopyToTempMatrix 5%positive;
     InvertTempMatrix; Render 1%positive 5%positive;
     TextureFrom VUndefined; SetResolution (VNumber 1)].
Proof.
  apply (generate_returned Hooks.quiet 5%positive VUndefined VUndefined initial []).
  reflexivity.
Defined.

(** X15. A call entered without a renderer that ends without one (its
    constructor threw, or a call before it did) has thrown, has rendered
    nothing and has left the module state as it was, so the next call
    constructs again. *)
Theorem generate_unset_retry (throws : list event → event → bool) (this : loc)
    (sm res : value) (σ : globals) (t : list event) :
  canvasRenderer σ = None →
  canvasRenderer (final (generateCanvasTexture throws this sm res σ t)) = None →
  final (generateCanvasTexture throws this sm res σ t) = σ
  ∧ out (generateCanvasTexture throws this sm res σ t) = Thrown
  ∧ rendered_on (trace (generateCanvasTexture throws this sm res σ t))
    = rendered_on t.
Proof.
  intros Hσ Hfin.
  destruct (generate_from_none throws this sm res σ t Hσ)
    as [(H1 & H2 & a1 & Htr & Hr1)|(Hset & _)]; [|congruence].
  split_and!; [done..|].
  by rewrite Htr, rendered_on_app, Hr1, app_nil_r.
Qed.

Lemma generate_unset_retry_witness :
  out (generateCanvasTexture
         (λ _ e, match e with NewCanvasRenderer _ => true | _ => false end)
         5%positive VUndefined VUndefined initial []) = Thrown.
Proof.
  destruct (generate_unset_retry
              (λ _ e, match e with NewCanvasRenderer _ => true | _ => false end)
              5%positive VUndefined VUndefined initial [])
    as (_ & H & _); [reflexivity | reflexivity | exact H].
Defined.

(** * Facts about [Tinted] *)

Import Tint.

Lemma in_bytes k : (0 ≤ k ≤ 255)%Z → In k bytes.
Proof.
  intros Hk.
  change bytes with (List.map Z.of_nat (List.seq 0 256)).
  apply in_map_iff. exists (Z.to_nat k).
  split; [lia|]. apply in_seq. lia.
Qed.

Lemma for_bytes_sound P k :
  for_bytes P = true → (0 ≤ k ≤ 255)%Z → P k = true.
Proof.
  unfold for_bytes. intros H Hk.
  by apply (proj1 (forallb_forall P bytes) H), in_bytes.
Qed.

Lemma for_bytes2_sound P k t :
  for_bytes2 P = true → (0 ≤ k ≤ 255)%Z → (0 ≤ t ≤ 255)%Z → P k t = true.
Proof.
  unfold for_bytes2. intros H Hk Ht.
  apply (for_bytes_sound (P k)); [|done].
  by apply (for_bytes_sound (λ k, for_bytes (P k))).
Qed.

Lemma float_eqb_eq (x y : float) : PrimFloat.Leibniz.eqb x y = true → x = y.
Proof. apply FloatAxioms.Leibniz.eqb_spec. Qed.

Lemma byte_at_range n x : (0 ≤ byte_at n x ≤ 255)%Z.
Proof.
  unfold byte_at. change 255%Z with (Z.ones 8).
  rewrite Z.land_ones by lia.
  pose proof (Z.mod_pos_bound (Z.shiftr x n) (2 ^ 8)) as H.
  change (Z.ones 8) with 255%Z. lia.
Qed.

Lemma byte_at_div n x : (0 ≤ n)%Z → byte_at n x = ((x / 2 ^ n) mod 256)%Z.
Proof.
  intros Hn. unfold byte_at. change 255%Z with (Z.ones 8).
  by rewrite Z.land_ones, Z.shiftr_div_pow2 by lia.
Qed.

Ltac byte_arith :=
  rewrite !byte_at_div by lia; unfold int32;
  change (2 ^ 0)%Z with 1%Z; change (2 ^ 8)%Z with 256%Z;
  change (2 ^ 16)%Z with 65536%Z; change (2 ^ 31)%Z with 2147483648%Z;
  change (2 ^ 32)%Z with 4294967296%Z;
  Z.to_euclidean_division_equations; lia.

(** [ToInt32] keeps the three low bytes of an integer. *)
Lemma byte_at_int32 x :
  byte_at 16 (int32 x) = byte_at 16 x
  ∧ byte_at 8 (int32 x) = byte_at 8 x
  ∧ byte_at 0 (int32 x) = byte_at 0 x.
Proof. split_and!; byte_arith. Qed.

Lemma land_low24 x : Z.land x 16777215 = (x mod 16777216)%Z.
Proof. change 16777215%Z with (Z.ones 24). by rewrite Z.land_ones by lia. Qed.

(** So does masking with [0xFFFFFF]. *)
Lemma byte_at_low24 x :
  byte_at 16 (Z.land x 16777215) = byte_at 16 x
  ∧ byte_at 8 (Z.land x 16777215) = byte_at 8 x
  ∧ byte_at 0 (Z.land x 16777215) = byte_at 0 x.
Proof. rewrite land_low24. split_and!; byte_arith. Qed.

Lemma byte_at_0 x : Z.land x 255 = byte_at 0 x.
Proof. unfold byte_at. by rewrite Z.shiftr_0_r. Qed.

(** [Tinted], channel by channel. *)
Lemma Tinted_channels tint color :
  Tinted tint color
  = (part 16 (byte_at 16 color) (byte_at 16 tint)
     + part 8 (byte_at 8 color) (byte_at 8 tint)
     + channel (byte_at 0 color) (byte_at 0 tint))%float.
Proof.
  unfold Tinted. cbv zeta.
  change (Z.land (Z.shiftr (int32 tint) 16) 255) with (byte_at 16 (int32 tint)).
  change (Z.land (Z.shiftr (int32 tint) 8) 255) with (byte_at 8 (int32 tint)).
  change (Z.land (Z.shiftr (int32 color) 16) 255) with (byte_at 16 (int32 color)).
  change (Z.land (Z.shiftr (int32 color) 8) 255) with (byte_at 8 (int32 color)).
  rewrite !byte_at_0.
  destruct (byte_at_int32 tint) as (-> & -> & ->).
  destruct (byte_at_int32 color) as (-> & -> & ->).
  unfold part, channel. reflexivity.
Qed.

Lemma white_checked : for_bytes white_ok = true.
Proof. vm_cast_no_check (eq_refl true). Qed.

Lemma black_checked : for_bytes black_ok = true.
Proof. vm_cast_no_check (eq_refl true). Qed.

Lemma bounded_checked : for_bytes2 bounded_ok = true.
Proof. vm_cast_no_check (eq_refl true). Qed.

Lemma symmetric_checked : for_bytes2 symmetric_ok = true.
Proof. vm_cast_no_check (eq_refl true). Qed.

Lemma byte_at_white :
  byte_at 16 16777215 = 255%Z ∧ byte_at 8 16777215 = 255%Z
  ∧ byte_at 0 16777215 = 255%Z.
Proof. by vm_compute. Qed.

Lemma byte_at_zero n : byte_at n 0 = 0%Z.
Proof. unfold byte_at. by rewrite Z.shiftr_0_l. Qed.

Lemma white_channels r g b :
  (0 ≤ r ≤ 255)%Z → (0 ≤ g ≤ 255)%Z → (0 ≤ b ≤ 255)%Z →
  (part 16 r 255 + part 8 g 255 + channel b 255)%float
  = (number (Z.shiftl r 16) + number (Z.shiftl g 8) + number b)%float.
Proof.
  intros Hr Hg Hb.
  pose proof (for_bytes_sound white_ok r white_checked Hr) as Er.
  pose proof (for_bytes_sound white_ok g white_checked Hg) as Eg.
  pose proof (for_bytes_sound white_ok b white_checked Hb) as Eb.
  unfold white_ok in Er, Eg, Eb.
  apply andb_prop in Er as [Er _]. apply andb_prop in Er as [Er _].
  apply andb_prop in Eg as [Eg _]. apply andb_prop in Eg as [_ Eg].
  apply andb_prop in Eb as [_ Eb].
  apply float_eqb_eq in Er, Eg, Eb. by rewrite Er, Eg, Eb.
Qed.

(** X16. Under the tint [0xFFFFFF] no channel of a colour changes: the
    result is the sum, as numbers, of the colour's own red byte at bit 16,
    green byte at bit 8 and blue byte. *)
Theorem Tinted_white (color : Z) :
  Tinted 16777215 color
  = (number (Z.shiftl (byte_at 16 color) 16)
     + number (Z.shiftl (byte_at 8 color) 8)
     + number (byte_at 0 color))%float.
Proof.
  rewrite Tinted_channels.
  destruct byte_at_white as (-> & -> & ->).
  by rewrite white_channels by apply byte_at_range.
Qed.

Lemma black_channels k :
  (0 ≤ k ≤ 255)%Z →
  part 16 k 0 = 0%float ∧ part 8 k 0 = 0%float ∧ channel k 0 = 0%float
  ∧ part 16 0 k = 0%float ∧ part 8 0 k = 0%float ∧ channel 0 k = 0%float.
Proof.
  intros Hk.
  pose proof (for_bytes_sound black_ok k black_checked Hk) as E.
  unfold black_ok in E.
  repeat (apply andb_prop in E as [E ?]).
  split_and!; by apply float_eqb_eq.
Qed.

Lemma zero_sum : (0 + 0 + 0)%float = 0%float.
Proof. reflexivity. Qed.

(** X17. The tint 0 turns every colour into 0, and the colour 0 stays 0
    under every tint. *)
Theorem Tinted_black (tint color : Z) :
  Tinted 0 color = 0%float ∧ Tinted tint 0 = 0%float.
Proof.
  rewrite !Tinted_channels, !byte_at_zero.
  destruct (black_channels _ (byte_at_range 16 color)) as (-> & _).
  destruct (black_channels _ (byte_at_range 8 color)) as (_ & -> & _).
  destruct (black_channels _ (byte_at_range 0 color)) as (_ & _ & -> & _).
  destruct (black_channels _ (byte_at_range 16 tint)) as (_ & _ & _ & -> & _).
  destruct (black_channels _ (byte_at_range 8 tint)) as (_ & _ & _ & _ & -> & _).
  destruct (black_channels _ (byte_at_range 0 tint)) as (_ & _ & _ & _ & _ & ->).
  split; apply zero_sum.
Qed.

(** X18. [Tinted] reads only the low 24 bits of the tint and of the colour:
    an alpha byte, or any higher bit, changes nothing. *)
Theorem Tinted_low24 (tint color : Z) :
  Tinted tint color = Tinted (Z.land tint 16777215) (Z.land color 16777215).
Proof.
  rewrite !Tinted_channels.
  destruct (byte_at_low24 tint) as (-> & -> & ->).
  destruct (byte_at_low24 color) as (-> & -> & ->).
  reflexivity.
Qed.

Lemma int32_small z :
  (- 2147483648 ≤ z < 2147483648)%Z → int32 z = z.
Proof.
  intros Hz. unfold int32.
  change (2 ^ 31)%Z with 2147483648%Z. change (2 ^ 32)%Z with 4294967296%Z.
  rewrite Z.mod_small by lia. lia.
Qed.

Lemma bounded_channels k t :
  (0 ≤ k ≤ 255)%Z → (0 ≤ t ≤ 255)%Z →
  (0 ≤ ToInt32 (channel k t) ≤ Z.min k t)%Z
  ∧ PrimFloat.leb 0%float (channel k t) = true
  ∧ PrimFloat.leb (channel k t) (number (Z.min k t)) = true.
Proof.
  intros Hk Ht.
  pose proof (for_bytes2_sound bounded_ok k t bounded_checked Hk Ht) as E.
  unfold bounded_ok, bounded_at in E. cbv zeta in E.
  apply andb_prop in E as [E E4]. apply andb_prop in E as [E E3].
  apply andb_prop in E as [E1 E2].
  apply Z.leb_le in E1, E2. done.
Qed.

Lemma part_shift n k t :
  (0 ≤ k ≤ 255)%Z → (0 ≤ t ≤ 255)%Z → (n = 8 ∨ n = 16)%Z →
  part n k t = number (Z.shiftl (ToInt32 (channel k t)) n).
Proof.
  intros Hk Ht Hn. unfold part.
  destruct (bounded_channels k t Hk Ht) as (Hr & _).
  rewrite int32_small; [done|].
  rewrite Z.shiftl_mul_pow2 by lia.
  destruct Hn as [-> | ->].
  - change (2 ^ 8)%Z with 256%Z. lia.
  - change (2 ^ 16)%Z with 65536%Z. lia.
Qed.

(** X19. Tinting never brightens: the result is the sum of a red part
    [r << 16], a green part [g << 8] and a blue part [b], where [r] and [g]
    are integers and [b] a number, each of them at least 0 and at most the
    smaller of the colour's and the tint's channel. *)
Theorem Tinted_never_brightens (tint color : Z) :
  ∃ (r g : Z) (b : float),
    Tinted tint color
    = (number (Z.shiftl r 16) + number (Z.shiftl g 8) + b)%float
    ∧ (0 ≤ r ≤ Z.min (byte_at 16 color) (byte_at 16 tint))%Z
    ∧ (0 ≤ g ≤ Z.min (byte_at 8 color) (byte_at 8 tint))%Z
    ∧ PrimFloat.leb 0%float b = true
    ∧ PrimFloat.leb b (number (Z.min (byte_at 0 color) (byte_at 0 tint))) = true.
Proof.
  pose proof (byte_at_range 16 color) as Hc16.
  pose proof (byte_at_range 8 color) as Hc8.
  pose proof (byte_at_range 0 color) as Hc0.
  pose proof (byte_at_range 16 tint) as Ht16.
  pose proof (byte_at_range 8 tint) as Ht8.
  pose proof (byte_at_range 0 tint) as Ht0.
  exists (ToInt32 (channel (byte_at 16 color) (byte_at 16 tint))),
         (ToInt32 (channel (byte_at 8 color) (byte_at 8 tint))),
         (channel (byte_at 0 color) (byte_at 0 tint)).
  rewrite Tinted_channels, !part_shift by (done || by (left + right)).
  destruct (bounded_channels _ _ Hc16 Ht16) as (? & _).
  destruct (bounded_channels _ _ Hc8 Ht8) as (? & _).
  destruct (bounded_channels _ _ Hc0 Ht0) as (_ & ? & ?).
  done.
Qed.

Lemma symmetric_channels k t :
  (0 ≤ k ≤ 255)%Z → (0 ≤ t ≤ 255)%Z → channel k t = channel t k.
Proof.
  intros Hk Ht. apply float_eqb_eq.
  exact (for_bytes2_sound symmetric_ok k t symmetric_checked Hk Ht).
Qed.

(** X20. Tinting is symmetric: a colour under a tint and the tint under
    the colour give the same number. *)
Theorem Tinted_symmetric (tint color : Z) :
  Tinted tint color = Tinted color tint.
Proof.
  rewrite !Tinted_channels. unfold part.
  rewrite (symmetric_channels (byte_at 16 color) (byte_at 16 tint))
    by apply byte_at_range.
  rewrite (symmetric_channels (byte_at 8 color) (byte_at 8 tint))
    by apply byte_at_range.
  rewrite (symmetric_channels (byte_at 0 color) (byte_at 0 tint))
    by apply byte_at_range.
  reflexivity.
Qed.

(** * The order of the output of [resolve] *)

Lemma reach_avoiding_mono h seen1 seen2 roots1 roots2 x :
  (∀ y, y ∈ roots1 → y ∉ seen1 → reach_avoiding h seen2 roots2 y) →
  seen2 ⊆ seen1 →
  reach_avoiding h seen1 roots1 x → reach_avoiding h seen2 roots2 x.
Proof.
  intros Hroots Hsub Hx. induction Hx as [x Hx Hn|s u x _ IH Hu Hxu Hn].
  - by apply Hroots.
  - apply (avoid_use h seen2 roots2 s u x); [done..|]. set_solver.
Qed.

(** A style that [resolve(styles, seen)] returns is reached from [styles]
    along styles outside [seen]. *)
Lemma resolve_avoid_sound f h : ∀ styles seen res seen',
  resolve f h styles seen = Some (res, seen') →
  ∀ x, x ∈ res → reach_avoiding h seen styles x.
Proof.
  induction f as [|f IHf]; [done|].
  induction styles as [|s rest IH]; intros seen res seen' H x Hx.
  - rewrite resolve_nil in H. injection H as <- <-. by apply elem_of_nil in Hx.
  - destruct (decide (s ∈ seen)) as [Hs|Hs].
    { rewrite resolve_cons_seen in H by done.
      apply (reach_avoiding_mono h seen seen rest); [|done|by eapply IH].
      intros y Hy Hn. apply avoid_root; [by right|done]. }
    assert (reach_avoiding h seen (s :: rest) s) as Hroot.
    { apply avoid_root; [by left|done]. }
    destruct (use_of h s) as [u|] eqn:Hu.
    + rewrite (resolve_cons_use _ _ _ _ _ u) in H by done.
      destruct (resolve f h u ({[s]} ∪ seen)) as [[sub seen2]|] eqn:Hsub;
        [|discriminate].
      destruct (resolve (S f) h rest seen2) as [[r sn]|] eqn:Hr; [|discriminate].
      unfold onto in H; simpl in H. injection H as <- <-.
      pose proof (resolve_inv _ _ _ _ _ _ Hsub) as (Hseen2 & _).
      apply elem_of_cons in Hx as [->|Hx]; [done|].
      apply elem_of_app in Hx as [Hx|Hx].
      * apply (reach_avoiding_mono h ({[s]} ∪ seen) seen u);
          [|set_solver|by eapply IHf].
        intros y Hy Hn. apply (avoid_use h seen _ s u); [done..|set_solver].
      * apply (reach_avoiding_mono h seen2 seen rest);
          [|set_solver|by eapply IH].
        intros y Hy Hn. apply avoid_root; [by right|set_solver].
    + rewrite resolve_cons_leaf in H by done.
      destruct (resolve (S f) h rest ({[s]} ∪ seen)) as [[r sn]|] eqn:Hr;
        [|discriminate].
      unfold onto in H; simpl in H. injection H as <- <-.
      apply elem_of_cons in Hx as [->|Hx]; [done|].
      apply (reach_avoiding_mono h ({[s]} ∪ seen) seen rest);
        [|set_solver|by eapply IH].
      intros y Hy Hn. apply avoid_root; [by right|set_solver].
Qed.

(** With a style it returns, [resolve] has seen every entry of its [use]
    list. *)
Lemma resolve_closed_seen f h styles seen res seen' s u x :
  resolve f h styles seen = Some (res, seen') →
  s ∈ res → use_of h s = Some u → x ∈ u → x ∈ seen'.
Proof.
  intros H Hs Hu Hx.
  apply list_elem_of_split in Hs as (pre & post & Hres).
  destruct (resolve_block _ _ _ _ _ _ H pre s post Hres) as [post' Hpost].
  rewrite Hu in Hpost. simpl in Hpost.
  pose proof (resolve_with_spec h u (seen ∪ list_to_set (pre ++ [s])) _
                (Nat.le_refl _)) as Hblk.
  destruct (resolve_with h u (seen ∪ list_to_set (pre ++ [s]))) as [blk sn].
  apply resolve_inv in Hblk as (-> & _ & _ & Hin).
  specialize (Hin x Hx). simpl in Hpost.
  apply resolve_inv in H as (-> & _).
  rewrite Hres, Hpost. set_solver.
Qed.

(** [resolve(styles, seen)] returns exactly the styles reached from
    [styles] along styles outside [seen]. *)
Lemma resolve_avoid f h styles seen res seen' x :
  resolve f h styles seen = Some (res, seen') →
  x ∈ res ↔ reach_avoiding h seen styles x.
Proof.
  intros H. split; [by eapply resolve_avoid_sound|].
  intros Hx. induction Hx as [x Hx Hn|s u x _ IH Hu Hxu Hn].
  - pose proof (resolve_inv _ _ _ _ _ _ H) as (Hseen & _ & _ & Hin).
    specialize (Hin x Hx). set_solver.
  - pose proof (resolve_closed_seen _ _ _ _ _ _ s u x H IH Hu Hxu) as Hin.
    apply resolve_inv in H as (-> & _). set_solver.
Qed.

(** A style of the output is an input style, or an entry of the [use] list
    of a style that stands before it. *)
Lemma resolve_parent f h : ∀ styles seen res seen',
  resolve f h styles seen = Some (res, seen') →
  ∀ pre x post, res = pre ++ x :: post →
  x ∈ styles ∨ ∃ p u, p ∈ pre ∧ use_of h p = Some u ∧ x ∈ u.
Proof.
  induction f as [|f IHf]; [done|].
  induction styles as [|s0 rest IH]; intros seen res seen' H pre x post Hres.
  - rewrite resolve_nil in H. injection H as <- <-. by destruct pre.
  - destruct (decide (s0 ∈ seen)) as [Hs|Hs].
    { rewrite resolve_cons_seen in H by done.
      destruct (IH _ _ _ H pre x post Hres) as [Hin|Hp]; [left; by right|by right]. }
    destruct (use_of h s0) as [u|] eqn:Hu.
    + rewrite (resolve_cons_use _ _ _ _ _ u) in H by done.
      destruct (resolve f h u ({[s0]} ∪ seen)) as [[sub seen2]|] eqn:Hsub;
        [|discriminate].
      destruct (resolve (S f) h rest seen2) as [[r sn]|] eqn:Hr; [|discriminate].
      unfold onto in H; simpl in H. injection H as <- <-.
      destruct pre as [|p pre']; simpl in Hres; injection Hres as Hhd Hres.
      * subst. left. by left.
      * subst p.
        apply app_eq_inv in Hres as [(k & Hk1 & Hk2)|(k & Hk1 & Hk2)].
        -- destruct k as [|k0 k']; simpl in Hk2.
           ++ rewrite app_nil_r in Hk1. subst sub.
              destruct (IH _ _ _ Hr [] x post (eq_sym Hk2))
                as [Hin|(p & u' & Hp & _)]; [left; by right|].
              by apply elem_of_nil in Hp.
           ++ injection Hk2 as <- ->.
              destruct (IHf _ _ _ _ Hsub pre' x k' Hk1)
                as [Hin|(p & u' & Hp & Hu' & Hxu)].
              ** right. exists s0, u. split_and!; [by left|done..].
              ** right. exists p, u'. split_and!; [by right|done..].
        -- subst pre' r.
           destruct (IH _ _ _ Hr k x post eq_refl)
             as [Hin|(p & u' & Hp & Hu' & Hxu)]; [left; by right|].
           right. exists p, u'. split_and!; [|done..].
           right. apply elem_of_app. by right.
    + rewrite resolve_cons_leaf in H by done.
      destruct (resolve (S f) h rest ({[s0]} ∪ seen)) as [[r sn]|] eqn:Hr;
        [|discriminate].
      unfold onto in H; simpl in H. injection H as <- <-.
      destruct pre as [|p pre']; simpl in Hres; injection Hres as Hhd Hres.
      * subst. left. by left.
      * subst p r.
        destruct (IH _ _ _ Hr pre' x post eq_refl)
          as [Hin|(p & u' & Hp & Hu' & Hxu)]; [left; by right|].
        right. exists p, u'. split_and!; [by right|done..].
Qed.

(** C4. [resolve] returns every style at most once, it returns every input
    style, and its output is a depth-first pre-order. Each style [s] of the
    output is an input style or an entry of the [use] list of a style that
    stands before it. Directly after [s] comes a block [blk], which is what
    [resolve(s.use, seen)] returns on the styles pushed up to and including
    [s], and which holds exactly the styles reached from [s.use] along
    styles not pushed before: the styles first reached through the use chain
    of [s]. So every entry of [s.use] stands before [s], is [s], or stands
    in that block after [s]. *)
Theorem resolve_dedup_preorder (h : heap) (styles : list loc) :
  NoDup (resolve_styles h styles)
  ∧ (∀ x, x ∈ styles → x ∈ resolve_styles h styles)
  ∧ ∀ pre s post, resolve_styles h styles = pre ++ s :: post →
      (s ∈ styles ∨ ∃ p u, p ∈ pre ∧ use_of h p = Some u ∧ s ∈ u)
      ∧ ∃ blk post',
          post = blk ++ post'
          ∧ blk = (resolve_with h (default [] (use_of h s))
                     (list_to_set (pre ++ [s]))).1
          ∧ (∀ x, x ∈ blk
                  ↔ reach_avoiding h (list_to_set (pre ++ [s]))
                      (default [] (use_of h s)) x)
          ∧ (∀ u x, use_of h s = Some u → x ∈ u →
                    x ∈ pre ∨ x = s ∨ x ∈ blk).
Proof.
  split; [apply resolve_styles_NoDup|].
  split; [intros x; apply resolve_styles_roots|].
  intros pre s post Hres.
  destruct (resolve_styles_spec h styles _ (Nat.le_refl _)) as [seen' H].
  split; [by eapply resolve_parent|].
  destruct (resolve_block _ _ _ _ _ _ H pre s post Hres) as [post' Hpost].
  assert (∅ ∪ list_to_set (pre ++ [s]) = (list_to_set (pre ++ [s]) : gset loc))
    as Hset by set_solver.
  rewrite Hset in Hpost. clear Hset.
  pose proof (resolve_with_spec h (default [] (use_of h s))
                (list_to_set (pre ++ [s])) _ (Nat.le_refl _)) as Hblk.
  destruct (resolve_with h (default [] (use_of h s)) (list_to_set (pre ++ [s])))
    as [blk sn]. simpl in Hpost.
  exists blk, post'. split_and!; [done..| |].
  - intros x. by eapply resolve_avoid.
  - intros u x Hu Hx. rewrite Hu in Hblk.
    destruct (decide (x ∈ (list_to_set (pre ++ [s]) : gset loc))) as [Hin|Hn].
    + set_solver.
    + right. right. apply (resolve_avoid _ _ _ _ _ _ x Hblk).
      apply avoid_root; [exact Hx | exact Hn].
Qed.

(** [resolve([A])] with [A = {use: [B]}]: [A], then the block [[B]]. *)
Lemma resolve_dedup_preorder_witness :
  (1%positive ∈ [1%positive]
   ∨ ∃ p u, p ∈ [] ∧ use_of ab_heap p = Some u ∧ 1%positive ∈ u)
  ∧ ∃ blk post',
      [2%positive] = blk ++ post'
      ∧ (∀ u x, use_of ab_heap 1%positive = Some u → x ∈ u →
                x ∈ [] ∨ x = 1%positive ∨ x ∈ blk).
Proof.
  destruct (resolve_dedup_preorder ab_heap [1%positive]) as (_ & _ & H).
  destruct (H [] 1%positive [2%positive]) as (Hp & blk & post' & H1 & _ & _ & H2).
  { vm_compute. reflexivity. }
  split; [exact Hp|]. exists blk, post'. split; [exact H1 | exact H2].
Defined.

(** * The shared renderer over a sequence of calls *)

Lemma app_eq_cons_inv {A} (l1 l2 p q : list A) (x : A) :
  l1 ++ l2 = p ++ x :: q →
  (∃ k, l1 = p ++ x :: k ∧ q = k ++ l2) ∨ (∃ k, p = l1 ++ k ∧ l2 = k ++ x :: q).
Proof.
  intros H. apply app_eq_inv in H as [(k & Hk1 & Hk2)|(k & Hk1 & Hk2)].
  - destruct k as [|y k]; simpl in Hk2.
    + right. exists []. rewrite app_nil_r in Hk1. by rewrite app_nil_r.
    + injection Hk2 as <- ->. left. by exists k.
  - right. by exists k.
Qed.

Lemma constructions_none t p r q :
  constructions t = 0%nat → t ≠ p ++ NewCanvasRenderer r :: q.
Proof.
  intros Hc ->. rewrite constructions_app in Hc.
  change (NewCanvasRenderer r :: q) with ([NewCanvasRenderer r] ++ q) in Hc.
  rewrite constructions_app in Hc.
  change (constructions [NewCanvasRenderer r]) with 1%nat in Hc. lia.
Qed.

Ltac flatten_throws :=
  repeat match goal with
         | H : context [(_ ++ [_]) ++ _] |- _ => rewrite <- app_assoc in H; simpl in H
         end.

(** One call entered without a renderer: either every constructor call it
    made threw and it ends as it began, having rendered nothing, or it made
    one constructor call, which returned, and holds that renderer. *)
Lemma generate_none_cases throws this sm res σ t :
  canvasRenderer σ = None →
  ∃ added,
    trace (generateCanvasTexture throws this sm res σ t) = t ++ added
    ∧ ((final (generateCanvasTexture throws this sm res σ t) = σ
        ∧ out (generateCanvasTexture throws this sm res σ t) = Thrown
        ∧ rendered_on added = []
        ∧ (∀ p r q, added = p ++ NewCanvasRenderer r :: q →
             throws (t ++ p) (NewCanvasRenderer r) = true))
       ∨ (canvasRenderer (final (generateCanvasTexture throws this sm res σ t))
          = Some (next_ref σ)
          ∧ (∀ x, x ∈ rendered_on added → x = next_ref σ)
          ∧ ∃ p q,
              added = p ++ NewCanvasRenderer (next_ref σ) :: q
              ∧ throws (t ++ p) (NewCanvasRenderer (next_ref σ)) = false
              ∧ constructions p = 0%nat ∧ constructions q = 0%nat)).
Proof.
  intros Hσ. step_calls throws; rewrite ?Hσ; simpl; split_throws throws;
    rewrite <- ?app_assoc; simpl; flatten_throws;
    (eexists; split; [reflexivity|]);
    first
      [ left; split_and!; [reflexivity..|];
        intros p r q Hsplit;
        repeat (destruct p as [|? p]; simplify_eq/=); done
      | right; split_and!; [reflexivity | |];
        [ intros x Hx; simpl in Hx;
          repeat (apply elem_of_cons in Hx as [Hx|Hx]; [done|]);
          by apply elem_of_nil in Hx
        | eexists [GetLocalBounds this; CreateRenderTexture sm _], _;
          split_and!; [reflexivity | done | reflexivity | reflexivity] ] ].
Qed.

(** A sequence of calls entered without a renderer: either every
    constructor call threw, or exactly one returned, every one before it
    threw and none was made after it. *)
Lemma generate_each_none throws sm res objs : ∀ σ t,
  canvasRenderer σ = None →
  ∃ added,
    trace (generate_each throws objs sm res σ t) = t ++ added
    ∧ ((final (generate_each throws objs sm res σ t) = σ
        ∧ rendered_on added = []
        ∧ (∀ p r q, added = p ++ NewCanvasRenderer r :: q →
             throws (t ++ p) (NewCanvasRenderer r) = true))
       ∨ (∃ r0 p q,
            canvasRenderer (final (generate_each throws objs sm res σ t)) = Some r0
            ∧ (∀ x, x ∈ rendered_on added → x = r0)
            ∧ added = p ++ NewCanvasRenderer r0 :: q
            ∧ throws (t ++ p) (NewCanvasRenderer r0) = false
            ∧ (∀ p1 r1 q1, p = p1 ++ NewCanvasRenderer r1 :: q1 →
                 throws (t ++ p1) (NewCanvasRenderer r1) = true)
            ∧ constructions q = 0%nat)).
Proof.
  induction objs as [|this objs IH]; intros σ t Hσ.
  - exists []. simpl. rewrite app_nil_r. split; [done|]. left.
    split_and!; [done..|]. intros p r q H. by destruct p.
  - rewrite generate_each_cons.
    destruct (generate_none_cases throws this sm res σ t Hσ)
      as (a1 & Htr & [(Hfin & _ & Hr1 & Hn1)|(Hfin & Hr1 & p & q & Ha1 & Hp & Hcp & Hcq)]).
    + rewrite Hfin, Htr.
      destruct (IH σ (t ++ a1) Hσ)
        as (a2 & Htr2 & [(Hfin2 & Hr2 & Hn2)
                        |(r0 & p2 & q2 & Hfin2 & Hr2 & Ha2 & Hp2 & Hn2 & Hc2)]).
      * exists (a1 ++ a2). split; [by rewrite Htr2, app_assoc|]. left.
        split_and!; [done | by rewrite rendered_on_app, Hr1, Hr2 |].
        intros p r q [(k & -> & ->)|(k & -> & ->)]%app_eq_cons_inv.
        -- by eapply Hn1.
        -- rewrite app_assoc. by eapply Hn2.
      * exists (a1 ++ a2). split; [by rewrite Htr2, app_assoc|]. right.
        exists r0, (a1 ++ p2), q2. split_and!.
        -- done.
        -- intros x. rewrite rendered_on_app, Hr1. apply Hr2.
        -- by rewrite Ha2, app_assoc.
        -- by rewrite app_assoc.
        -- intros p1 r1 q1 [(k & -> & ->)|(k & -> & ->)]%app_eq_cons_inv.
           ++ by eapply Hn1.
           ++ rewrite app_assoc. by eapply Hn2.
        -- done.
    + rewrite Htr.
      destruct (generate_each_keeps throws sm res (next_ref σ) objs _ (t ++ a1) Hfin)
        as (Hfin2 & a2 & Htr2 & Hc2 & Hr2).
      exists (a1 ++ a2). split; [by rewrite Htr2, app_assoc|]. right.
      exists (next_ref σ), p, (q ++ a2). split_and!.
      * by rewrite Hfin2.
      * intros x. rewrite rendered_on_app.
        intros [Hx|Hx]%elem_of_app; eauto.
      * by rewrite Ha1, <- app_assoc.
      * done.
      * intros p1 r1 q1 Hsplit. by destruct (constructions_none p p1 r1 q1 Hcp).
      * rewrite constructions_app. lia.
Qed.

Lemma generate_each_app throws sm res objs1 : ∀ objs2 σ t,
  generate_each throws (objs1 ++ objs2) sm res σ t
  = generate_each throws objs2 sm res
      (final (generate_each throws objs1 sm res σ t))
      (trace (generate_each throws objs1 sm res σ t)).
Proof.
  induction objs1 as [|this objs1 IH]; intros objs2 σ t; [done|].
  rewrite <- app_comm_cons, !generate_each_cons. apply IH.
Qed.

(** C9, where the code departs from it: when [getLocalBounds] throws in the
    first call, that call constructs nothing and the renderer is constructed
    by the second call; when the constructor throws in the first call, the
    second call calls it again. *)
Lemma renderer_constructed_late :
  constructions
    (trace (generateCanvasTexture
              (λ past e, match past, e with
                         | [], GetLocalBounds _ => true
                         | _, _ => false
                         end)
              5%positive VUndefined VUndefined initial [])) = 0%nat
  ∧ constructions
      (trace (generate_each
                (λ past e, match past, e with
                           | [], GetLocalBounds _ => true
                           | _, _ => false
                           end)
                [5%positive; 5%positive] VUndefined VUndefined initial [])) = 1%nat
  ∧ constructions
      (trace (generate_each
                (λ past e, match past, e with
                           | [_; _], NewCanvasRenderer _ => true
                           | _, _ => false
                           end)
                [5%positive; 5%positive] VUndefined VUndefined initial [])) = 2%nat.
Proof. split_and!; vm_compute; reflexivity. Qed.

(** C9, as the code has it. Over every sequence of [generateCanvasTexture]
    calls entered with [canvasRenderer] unset, whichever calls throw:
    - either every constructor call threw, [canvasRenderer] is still unset
      and nothing was rendered; or exactly one constructor call returned,
      every constructor call before it threw, no constructor call was made
      after it, [canvasRenderer] holds the renderer it gave and every
      [render] of the sequence is on that renderer;
    - once [canvasRenderer] holds a renderer, the rest of the sequence
      constructs nothing, renders on that renderer only and leaves the
      module state as it is: the renderer is never torn down or replaced;
    - when the first call returns, the one construction is in the first
      call, and when no call throws every call renders once. *)
Theorem shared_renderer_once (throws : list event → event → bool)
    (objs : list loc) (sm res : value) (σ0 : globals) :
  canvasRenderer σ0 = None →
  ((canvasRenderer (final (generate_each throws objs sm res σ0 [])) = None
    ∧ rendered_on (trace (generate_each throws objs sm res σ0 [])) = []
    ∧ (∀ p r q,
         trace (generate_each throws objs sm res σ0 [])
         = p ++ NewCanvasRenderer r :: q →
         throws p (NewCanvasRenderer r) = true))
   ∨ (∃ r0 p q,
        canvasRenderer (final (generate_each throws objs sm res σ0 [])) = Some r0
        ∧ trace (generate_each throws objs sm res σ0 [])
          = p ++ NewCanvasRenderer r0 :: q
        ∧ throws p (NewCanvasRenderer r0) = false
        ∧ (∀ p1 r1 q1, p = p1 ++ NewCanvasRenderer r1 :: q1 →
             throws p1 (NewCanvasRenderer r1) = true)
        ∧ constructions q = 0%nat
        ∧ (∀ x, x ∈ rendered_on (trace (generate_each throws objs sm res σ0 []))
                → x = r0)))
  ∧ (∀ objs1 objs2 r0,
       objs = objs1 ++ objs2 →
       canvasRenderer (final (generate_each throws objs1 sm res σ0 [])) = Some r0 →
       final (generate_each throws objs sm res σ0 [])
       = final (generate_each throws objs1 sm res σ0 [])
       ∧ ∃ later,
           trace (generate_each throws objs sm res σ0 [])
           = trace (generate_each throws objs1 sm res σ0 []) ++ later
           ∧ constructions later = 0%nat
           ∧ (∀ x, x ∈ rendered_on later → x = r0))
  ∧ (∀ this rest,
       objs = this :: rest →
       out (generateCanvasTexture throws this sm res σ0 []) = Returned tt →
       ∃ r0 later,
         trace (generate_each throws objs sm res σ0 [])
         = trace (generateCanvasTexture throws this sm res σ0 []) ++ later
         ∧ constructions (trace (generateCanvasTexture throws this sm res σ0 []))
           = 1%nat
         ∧ constructions later = 0%nat
         ∧ constructions (trace (generate_each throws objs sm res σ0 [])) = 1%nat
         ∧ (∀ x, x ∈ rendered_on (trace (generate_each throws objs sm res σ0 []))
                 → x = r0)
         ∧ canvasRenderer (final (generate_each throws objs sm res σ0 []))
           = Some r0
         ∧ ((∀ past e, throws past e = false) →
            rendered_on (trace (generate_each throws objs sm res σ0 []))
            = replicate (length objs) r0)).
Proof.
  intros Hσ. split_and!.
  - destruct (generate_each_none throws sm res objs σ0 [] Hσ)
      as (added & Htr & [(Hfin & Hr & Hn)
                        |(r0 & p & q & Hfin & Hr & Ha & Hp & Hn & Hc)]);
      simpl in Htr.
    + left. rewrite Hfin, Htr. split_and!; [done..|].
      intros p r q Hsplit. by apply (Hn p r q).
    + right. exists r0, p, q. rewrite Htr.
      split_and!; [done | done | done | | done | done].
      intros p1 r1 q1 Hsplit. by apply (Hn p1 r1 q1).
  - intros objs1 objs2 r0 -> Hmid.
    rewrite generate_each_app.
    destruct (generate_each_keeps throws sm res r0 objs2 _
                (trace (generate_each throws objs1 sm res σ0 [])) Hmid)
      as (Hfin & later & Htr & Hc & Hr).
    split; [done|]. by exists later.
  - intros this rest -> Hout.
    destruct (generate_first throws this sm res σ0 Hσ Hout) as (Hfin & Hc & Hr).
    set (first := generateCanvasTexture throws this sm res σ0 []) in *.
    destruct (generate_each_keeps throws sm res (next_ref σ0) rest
                (final first) (trace first) Hfin)
      as (Hfin2 & later & Htr & Hc2 & Hr2).
    rewrite generate_each_cons. fold first.
    exists (next_ref σ0), later. split_and!.
    + done.
    + done.
    + done.
    + rewrite Htr, constructions_app. lia.
    + intros r. rewrite Htr, rendered_on_app, Hr.
      intros [Hin|Hin]%elem_of_app; [|by apply Hr2].
      by apply list_elem_of_singleton in Hin.
    + by rewrite Hfin2.
    + intros Hq. rewrite (generate_each_quiet _ _ _ (next_ref σ0)), Hr by done.
      reflexivity.
Qed.

Lemma shared_renderer_once_witness :
  ∃ r0,
    constructions
      (trace (generate_each Hooks.quiet [5%positive; 6%positive; 5%positive]
                VUndefined VUndefined initial [])) = 1%nat
    ∧ rendered_on
        (trace (generate_each Hooks.quiet [5%positive; 6%positive; 5%positive]
                  VUndefined VUndefined initial [])) = [r0; r0; r0].
Proof.
  destruct (shared_renderer_once Hooks.quiet [5%positive; 6%positive; 5%positive]
              VUndefined VUndefined initial eq_refl) as (_ & _ & H).
  destruct (H 5%positive [6%positive; 5%positive] eq_refl eq_refl)
    as (r0 & later & _ & _ & _ & Hc & _ & _ & Hr).
  exists r0. split; [exact Hc|]. apply Hr. reflexivity.
Defined.
